(** * Verification of the legal-term annotator (anotacion_dpej.py)

    A shallow embedding of the annotator's core functions
    ([generate_inflections], [build_inflected_patterns],
    [find_offsets_and_forms], [filter_offsets_across_words],
    [search_in_dle] and [execute_annotator] with its writing loop)
    together with the properties its specification states about them and
    further properties of the code.

    Python values are modelled as follows.
    - [str] is a sequence of Unicode code points: [list N].
    - [int] is unbounded: [Z]; positions inside a text are [nat].
    - [dict] keeps insertion order and has unique keys: an association
      list, with the uniqueness of keys as the invariant [dict_wf].
    - The part of the [re] module the program uses (escape, compile of the
      pattern the program builds, finditer) is modelled in [Module Re]. *)

From Stdlib Require Import String Ascii DecimalString.
From Stdlib Require Import List Sorted Permutation ZArith NArith Bool Arith Lia.
Import ListNotations.

Local Open Scope Z_scope.

(* ================================================================== *)
(** ** Python strings *)

Definition char := N.
Definition str := list char.

(** An ASCII literal as a Python string. *)
Definition lit (s : string) : str := map N_of_ascii (list_ascii_of_string s).

Definition char_eqb (a b : char) : bool := N.eqb a b.

Fixpoint str_eqb (a b : str) : bool :=
  match a, b with
  | [], [] => true
  | x :: a', y :: b' => char_eqb x y && str_eqb a' b'
  | _, _ => false
  end.

(* ================================================================== *)
(** ** Python dictionaries, in insertion order *)

Section Dict.
Context {V : Type}.

Definition dict := list (str * V).

Definition keys (d : dict) : list str := map fst d.

(** The invariant of a dictionary: no key occurs twice. *)
Definition dict_wf (d : dict) : Prop := NoDup (keys d).

(** [d.get(k)] *)
Fixpoint dict_get (k : str) (d : dict) : option V :=
  match d with
  | [] => None
  | (k', v) :: d' => if str_eqb k k' then Some v else dict_get k d'
  end.

(** [k in d.keys()] *)
Definition dict_mem (k : str) (d : dict) : bool :=
  match dict_get k d with Some _ => true | None => false end.

(** [d[k] = v]: the value of an existing key is replaced where the key
    stands, a new key goes to the end. *)
Fixpoint dict_set (k : str) (v : V) (d : dict) : dict :=
  match d with
  | [] => [(k, v)]
  | (k', v') :: d' =>
      if str_eqb k k' then (k', v) :: d' else (k', v') :: dict_set k v d'
  end.
End Dict.

Arguments dict V : clear implicits.

(* ================================================================== *)
(** ** OverlapResolver: [filter_offsets_across_words] *)

Definition span := (Z * Z)%type.

(** The test of line 83: [start1 >= start2 and end1 <= end2]. *)
Definition inside (start1 end1 start2 end2 : Z) : bool :=
  (start1 >=? start2) && (end1 <=? end2).

(** The loop [for start2, end2 in other_offsets], with its [break]:
    [is_contained] is the flag on entry, the result is the flag on exit. *)
Fixpoint scan_other_offsets (start1 end1 : Z) (other_offsets : list span)
    (is_contained : bool) : bool :=
  match other_offsets with
  | [] => is_contained
  | (start2, end2) :: rest =>
      if inside start1 end1 start2 end2 then
        (* is_contained = True *)
        if end2 - start2 >? end1 - start1 then true (* break *)
        else scan_other_offsets start1 end1 rest true
      else scan_other_offsets start1 end1 rest is_contained
  end.

(** The loop [for other_word, other_offsets in data.items()], with its
    [continue] on the current word. *)
Fixpoint scan_other_words (current_word : str) (start1 end1 : Z)
    (items : list (str * list span)) (is_contained : bool) : bool :=
  match items with
  | [] => is_contained
  | (other_word, other_offsets) :: rest =>
      if str_eqb current_word other_word then
        scan_other_words current_word start1 end1 rest is_contained
      else
        scan_other_words current_word start1 end1 rest
          (scan_other_offsets start1 end1 other_offsets is_contained)
  end.

(** The loop [for current_offset in current_offsets]. *)
Definition filter_current_offsets (data : dict (list span))
    (current_word : str) (current_offsets : list span) : list span :=
  fold_left
    (fun filtered_offsets current_offset =>
       let '(start1, end1) := current_offset in
       if scan_other_words current_word start1 end1 data false
       then filtered_offsets
       else filtered_offsets ++ [current_offset])
    current_offsets [].

Definition filter_offsets_across_words (data : dict (list span))
    : dict (list span) :=
  fold_left
    (fun filtered_data item =>
       let '(current_word, current_offsets) := item in
       dict_set current_word
         (filter_current_offsets data current_word current_offsets)
         filtered_data)
    data [].

(** A list obtained from another by deleting elements. *)
Inductive Subseq {A : Type} : list A -> list A -> Prop :=
| Subseq_nil : Subseq [] []
| Subseq_keep x l1 l2 : Subseq l1 l2 -> Subseq (x :: l1) (x :: l2)
| Subseq_drop x l1 l2 : Subseq l1 l2 -> Subseq l1 (x :: l2).

(** The span [(start1, end1)] of key [K] lies inside a span recorded
    under another key of [data]. *)
Definition contained_elsewhere (data : dict (list span)) (K : str)
    (sp : span) : Prop :=
  exists K2 offsets2 start2 end2,
    In (K2, offsets2) data /\ K2 <> K /\ In (start2, end2) offsets2 /\
    fst sp >= start2 /\ snd sp <= end2.

(** The same, by a test. *)
Definition contained_elsewhereb (data : dict (list span)) (K : str)
    (sp : span) : bool :=
  existsb
    (fun item =>
       negb (str_eqb K (fst item)) &&
       existsb (fun o => inside (fst sp) (snd sp) (fst o) (snd o)) (snd item))
    data.


(* ================================================================== *)
(** ** String operations of the Python library *)

(** [word.endswith(suffix)] *)
Definition endswith (word suffix : str) : bool :=
  (length suffix <=? length word)%nat &&
  str_eqb (skipn (length word - length suffix) word) suffix.

(** [word.endswith((s1, ..., sn))]: some element of the tuple is a suffix. *)
Definition endswith_any (word : str) (suffixes : list str) : bool :=
  existsb (endswith word) suffixes.

(** [word[:-1]] *)
Definition drop_last (word : str) : str := removelast word.

(** [text[start:end]] for [0 <= start <= end]. *)
Definition slice (text : str) (start end_ : nat) : str :=
  firstn (end_ - start) (skipn start text).

(** [c.isspace()]: the white space of [str.split] and [str.strip]. *)
Definition isspace (c : char) : bool :=
  ((9 <=? c) && (c <=? 13) || (28 <=? c) && (c <=? 32) ||
   (c =? 133) || (c =? 160) || (c =? 5760) ||
   (8192 <=? c) && (c <=? 8202) || (c =? 8232) || (c =? 8233) ||
   (c =? 8239) || (c =? 8287) || (c =? 12288))%N.

(** [s.split()]: the maximal runs of characters that are not white space.
    [word] is the run being read. *)
Fixpoint split_loop (s : str) (word : str) : list str :=
  match s with
  | [] => match word with [] => [] | _ => [word] end
  | c :: rest =>
      if isspace c then
        match word with
        | [] => split_loop rest []
        | _ => word :: split_loop rest []
        end
      else split_loop rest (word ++ [c])
  end.

Definition split (s : str) : list str := split_loop s [].

(** [sep.join(parts)] *)
Fixpoint join (sep : str) (parts : list str) : str :=
  match parts with
  | [] => []
  | [p] => p
  | p :: rest => p ++ sep ++ join sep rest
  end.

Fixpoint lstrip (s : str) : str :=
  match s with
  | [] => []
  | c :: rest => if isspace c then lstrip rest else s
  end.

(** [s.strip()] *)
Definition strip (s : str) : str := rev (lstrip (rev (lstrip s))).

(** [str(n)] for an [int]. *)
Definition str_of_int (n : Z) : str :=
  lit (NilZero.string_of_int (Z.to_int n)).

(** The first elements of all the lists, when none is empty. *)
Fixpoint heads {A : Type} (ls : list (list A)) : option (list A) :=
  match ls with
  | [] => Some []
  | [] :: _ => None
  | (x :: _) :: rest =>
      match heads rest with Some hs => Some (x :: hs) | None => None end
  end.

Fixpoint zip_rows {A : Type} (n : nat) (ls : list (list A)) : list (list A) :=
  match n with
  | O => []
  | S n' =>
      match heads ls with
      | Some hs => hs :: zip_rows n' (map (@tl A) ls)
      | None => []
      end
  end.

(** [zip( *ls )]: the i-th tuple holds the i-th element of every list, up
    to the length of the shortest list; no list gives no tuple. *)
Definition zip_star {A : Type} (ls : list (list A)) : list (list A) :=
  match ls with
  | [] => []
  | l :: _ => zip_rows (length l) ls
  end.

(* ================================================================== *)
(** ** InflectionGenerator: [generate_inflections] *)

Definition vowels : list str :=
  [lit "a"; lit "e"; lit "i"; lit "o"; lit "u"].

(** á, é, í, ó, ú *)
Definition accented_vowels : list str :=
  [[225%N]; [233%N]; [237%N]; [243%N]; [250%N]].

Definition generate_inflections (word : str) : list str :=
  let inflections := [word] in
  if endswith_any word vowels then
    inflections ++ [word ++ lit "s"]
  else if endswith_any word accented_vowels then
    inflections ++ [drop_last word ++ lit "es"]
  else if endswith word (lit "z") then
    inflections ++ [drop_last word ++ lit "ces"]
  else
    inflections ++ [word ++ lit "es"].

(* ================================================================== *)
(** ** The regular expressions of the program

    The functions of the module [re] the program calls, as of Python 3.7:
    [escape] protects the special characters only, and [finditer] lets an
    empty match follow a match that is not empty. *)

Module Re.

(** The characters [re.escape] puts a backslash before:
    ( ) [ ] { } ? * + - | ^ $ \ . & ~ # space \t \n \r \v \f *)
Definition special_chars : list char :=
  [40; 41; 91; 93; 123; 125; 63; 42; 43; 45; 124; 94; 36; 92; 46; 38; 126;
   35; 32; 9; 10; 13; 11; 12]%N.

Definition is_special (c : char) : bool := existsb (N.eqb c) special_chars.

Definition backslash : char := 92%N.

(** [re.escape(pattern)] *)
Definition escape (pattern : str) : str :=
  flat_map (fun c => if is_special c then [backslash; c] else [c]) pattern.

(** Compiled patterns: the constructs that occur in the patterns of
    [find_offsets_and_forms]. *)
Inductive regex : Type :=
| Empty                              (* matches the empty string *)
| Literal (c : char)                 (* one character *)
| AtBoundary                         (* \b *)
| Seq (r1 r2 : regex)
| Branch (r1 r2 : regex).            (* r1|r2, r1 tried first *)

Fixpoint literals (s : str) : regex :=
  match s with
  | [] => Empty
  | c :: rest => Seq (Literal c) (literals rest)
  end.

Fixpoint branch (r : regex) (rs : list regex) : regex :=
  match rs with
  | [] => r
  | r' :: rs' => Branch r (branch r' rs')
  end.

(** [\b(?:a1|...|an)\b] *)
Definition bounded (alt : str) (alts : list str) : regex :=
  Seq AtBoundary (Seq (branch (literals alt) (map literals alts)) AtBoundary).

(** The characters with a meaning of their own in a pattern, outside a
    character class: . ^ $ * + ? { } [ ] \ | ( ) *)
Definition is_meta (c : char) : bool :=
  existsb (N.eqb c) [46; 94; 36; 42; 43; 63; 123; 125; 91; 93; 92; 124; 40; 41]%N.

Definition is_ascii_alnum (c : char) : bool :=
  ((48 <=? c) && (c <=? 57) || (65 <=? c) && (c <=? 90) ||
   (97 <=? c) && (c <=? 122))%N.

(** Reads the alternatives of a group up to its closing parenthesis:
    [cur] is the alternative being read, [alts] those already read.  A
    backslash before a character that is no ASCII letter or digit gives
    that character; an unescaped character with a meaning of its own,
    other than [|] and the closing parenthesis, is outside the patterns
    read here. *)
Fixpoint parse_group (s : str) (cur : str) (alts : list str)
    : option (list str * str) :=
  match s with
  | [] => None
  | c :: rest =>
      if (c =? backslash)%N then
        match rest with
        | [] => None
        | d :: rest' =>
            if is_ascii_alnum d then None
            else parse_group rest' (cur ++ [d]) alts
        end
      else if (c =? 124)%N then parse_group rest [] (alts ++ [cur])
      else if (c =? 41)%N then Some (alts ++ [cur], rest)
      else if is_meta c then None
      else parse_group rest (cur ++ [c]) alts
  end.

Fixpoint strip_prefix (prefix s : str) : option str :=
  match prefix, s with
  | [], _ => Some s
  | p :: prefix', c :: s' =>
      if (p =? c)%N then strip_prefix prefix' s' else None
  | _ :: _, [] => None
  end.

(** [re.compile(pattern)] on the patterns of the form
    [\b(?:a1|...|an)\b] with literal alternatives; [None] for a pattern
    outside that form. *)
Definition compile (pattern : str) : option regex :=
  match strip_prefix (lit "\b(?:") pattern with
  | None => None
  | Some body =>
      match parse_group body [] [] with
      | Some (alt :: alts, rest) =>
          if str_eqb rest (lit "\b") then Some (bounded alt alts) else None
      | _ => None
      end
  end.

(** The character tables of the engine, which come from the Unicode
    database: [is_word c] says whether [c] is a word character (\w), and
    [ci_match c t] whether the pattern character [c] matches the text
    character [t] under [re.IGNORECASE]. *)
Record tables : Type := {
  is_word : char -> bool;
  ci_match : char -> char -> bool
}.

Section Engine.
Variable T : tables.
Variable text : str.

(** \b at [pos]: exactly one of the characters before and after [pos] is
    a word character; the outside of the text counts as no word
    character. *)
Definition at_boundary (pos : nat) : bool :=
  let this := match nth_error text pos with
              | Some c => is_word T c | None => false end in
  let that := match pos with
              | O => false
              | S p => match nth_error text p with
                       | Some c => is_word T c | None => false end
              end in
  xorb this that.

(** The backtracking matcher: [re_match r k pos] is the end of the first
    way, in the order of the alternatives, to match [r] from [pos] so
    that the continuation [k] accepts the position reached. *)
Fixpoint re_match (r : regex) (k : nat -> option nat) (pos : nat)
    : option nat :=
  match r with
  | Empty => k pos
  | Literal c =>
      match nth_error text pos with
      | Some t => if ci_match T c t then k (S pos) else None
      | None => None
      end
  | AtBoundary => if at_boundary pos then k pos else None
  | Seq r1 r2 => re_match r1 (re_match r2 k) pos
  | Branch r1 r2 =>
      match re_match r1 k pos with
      | Some e => Some e
      | None => re_match r2 k pos
      end
  end.

(** A match starting at [pos]; with [must_advance] it may not be empty. *)
Definition match_at (r : regex) (pos : nat) (must_advance : bool)
    : option nat :=
  re_match r
    (fun e => if must_advance && (e =? pos)%nat then None else Some e) pos.

(** The first match starting at [pos] or at one of the [n] positions
    after it; [must_advance] holds for the first position only. *)
Fixpoint search (r : regex) (n : nat) (pos : nat) (must_advance : bool)
    : option (nat * nat) :=
  match match_at r pos must_advance with
  | Some e => Some (pos, e)
  | None =>
      match n with
      | O => None
      | S n' => search r n' (S pos) false
      end
  end.

(** The scanner of [finditer]: each search starts where the match before
    it ended, and after an empty match the next one may not be empty at
    the same position. *)
Fixpoint finditer_loop (fuel : nat) (r : regex) (start : nat)
    (must_advance : bool) : list (nat * nat) :=
  match fuel with
  | O => []
  | S fuel' =>
      match search r (length text - start) start must_advance with
      | None => []
      | Some (s, e) => (s, e) :: finditer_loop fuel' r e (e =? s)%nat
      end
  end.

(** At most two matches start at a position, so that this fuel is never
    used up (lemma [finditer_loop_fuel]). *)
Definition finditer_fuel : nat := 2 * length text + 3.

End Engine.

(** [re.finditer(pattern, text, re.IGNORECASE)], as the spans of the
    matches. *)
Definition finditer (T : tables) (pattern text : str)
    : option (list (nat * nat)) :=
  match compile pattern with
  | None => None
  | Some r => Some (finditer_loop T text (finditer_fuel text) r 0 false)
  end.

(** The tables restricted to Basic Latin and Latin-1 Supplement, the
    alphabet of the examples: a code point from U+0100 on is no word
    character and matches only itself. *)
Definition latin1_lower (c : char) : char :=
  if ((65 <=? c) && (c <=? 90) ||
      (192 <=? c) && (c <=? 222) && negb (c =? 215))%N
  then (c + 32)%N else c.

Definition latin1_is_word (c : char) : bool :=
  (is_ascii_alnum c || (c =? 95) ||
   (c =? 170) || (c =? 178) || (c =? 179) || (c =? 181) || (c =? 185) ||
   (c =? 186) || (188 <=? c) && (c <=? 190) ||
   (192 <=? c) && (c <=? 214) || (216 <=? c) && (c <=? 246) ||
   (248 <=? c) && (c <=? 255))%N.

Definition latin1 : tables := {|
  is_word := latin1_is_word;
  ci_match := fun c t => (latin1_lower t =? latin1_lower c)%N
|}.

End Re.

(* ================================================================== *)
(** ** PatternBuilder: [build_inflected_patterns] *)

Definition build_inflected_patterns (expression : str) : list str :=
  let words := split expression in
  if (length words =? 1)%nat then
    map Re.escape (generate_inflections expression)
  else
    let inflected_forms := map generate_inflections words in
    fold_left
      (fun patterns combo => patterns ++ [join (lit " ") (map Re.escape combo)])
      (zip_star inflected_forms) [].

(* ================================================================== *)
(** ** TermMatcher: [find_offsets_and_forms] *)

(** A match: its span and the text matched. *)
Definition found := (span * str)%type.

(** [r'\b(?:{})\b'.format('|'.join(patterns))] *)
Definition punctuation_aware_pattern (patterns : list str) : str :=
  lit "\b(?:" ++ join (lit "|") patterns ++ lit ")\b".

(** [None] stands for an exception of [re]. *)
Definition find_offsets_and_forms (T : Re.tables) (text expression : str)
    : option (list found) :=
  let patterns := build_inflected_patterns expression in
  match Re.finditer T (punctuation_aware_pattern patterns) text with
  | None => None
  | Some spans =>
      Some (fold_left
              (fun matches m =>
                 let '(start, end_) := m in
                 let matched_text := slice text start end_ in
                 matches ++ [((Z.of_nat start, Z.of_nat end_), matched_text)])
              spans [])
  end.

(* ================================================================== *)
(** ** DictionaryScanner: [search_in_dle] *)

(** The records of the lexicon (LemasInfo-dje.json): [Type] of a record
    of [Body] is [DomainType] here, [SubLemas] is optional.  A record
    holds the fields the code reads, as strings: the [KeyError] of a
    record without [Body], [Type], [Name] or [Text] is outside the
    model. *)
Record domain_info : Type := { DomainType : str }.
Record subterm_info : Type := { Text : str }.
Record concept_record : Type := {
  Name : str;
  SubLemas : option (list subterm_info);
  Body : list domain_info
}.

(** The index of the results: the spans found, by the text matched.  The
    lists are held by value: two keys never share one list object. *)
Definition results_index := dict (list span).

(** Lines 114-117 and 122-125:
    [if form not in results.keys(): results[form] = [positions]
     else: results[form].append(positions)] *)
Definition record_result (results : results_index) (result : found)
    : results_index :=
  let '(positions, form) := result in
  match dict_get form results with
  | None => dict_set form [positions] results
  | Some offsets => dict_set form (offsets ++ [positions]) results
  end.

(** The loops [for subterm_result in subterm_results] and
    [for term_result in term_results]. *)
Definition record_results (results : results_index) (found_here : list found)
    : results_index :=
  fold_left record_result found_here results.

(** Errors of [re] are passed on. *)
Definition bind {A B : Type} (x : option A) (f : A -> option B) : option B :=
  match x with Some a => f a | None => None end.

Notation "x <- e ;; k" := (bind e (fun x => k))
  (at level 61, e at next level, right associativity).

(** The loop [for subterm_info in concept_record['SubLemas']]. *)
Fixpoint scan_subterms (T : Re.tables) (text : str)
    (subterms : list subterm_info) (results : results_index)
    : option results_index :=
  match subterms with
  | [] => Some results
  | subterm_info :: rest =>
      let subterm := Text subterm_info in
      subterm_results <- find_offsets_and_forms T text subterm ;;
      scan_subterms T text rest (record_results results subterm_results)
  end.

(** The body of the loop over the lexicon, for one record. *)
Definition scan_record (T : Re.tables) (text : str) (termtype : str)
    (concept_record : concept_record) (results : results_index)
    : option results_index :=
  let domains := map DomainType (Body concept_record) in
  if existsb (str_eqb termtype) domains then
    results <-
      match SubLemas concept_record with
      | Some subterms => scan_subterms T text subterms results
      | None => Some results
      end ;;
    term_results <- find_offsets_and_forms T text (Name concept_record) ;;
    Some (record_results results term_results)
  else Some results.

(** The loop [for concept_record in dje_data]. *)
Fixpoint scan_records (T : Re.tables) (text : str) (termtype : str)
    (dje_data : list concept_record) (results : results_index)
    : option results_index :=
  match dje_data with
  | [] => Some results
  | concept_record :: rest =>
      results <- scan_record T text termtype concept_record results ;;
      scan_records T text termtype rest results
  end.

Definition search_in_dle (T : Re.tables) (dje_data : list concept_record)
    (text : str) (results : results_index) (termtype : str)
    : option results_index :=
  results <- scan_records T text termtype dje_data results ;;
  Some (filter_offsets_across_words results).

(** The default of [termtype]: ['Lab.'] *)
Definition default_termtype : str := lit "Lab.".

(* ================================================================== *)
(** ** AnnotationWriter: the writing loop of [execute_annotator] *)

Definition tab : char := 9%N.
Definition newline : char := 10%N.

(** [f"{term_id}\t{term_type} {start} {end}\t{term.strip()}\n"] with
    [term_id = f"T{ind}"] and [term_type = 'concept']. *)
Definition formated_data (ind : Z) (term : str) (start end_ : Z) : str :=
  let term_id := lit "T" ++ str_of_int ind in
  let term_type := lit "concept" in
  term_id ++ [tab] ++ term_type ++ lit " " ++ str_of_int start ++ lit " " ++
  str_of_int end_ ++ [tab] ++ strip term ++ [newline].

(** The state of the loop: the counter [ind] and what was written to the
    file, one element for each call of [f.write]. *)
Definition writer_state := (Z * list str)%type.

(** The loop [for start, end in resultados[term]]. *)
Definition write_term (term : str) (offsets : list span) (st : writer_state)
    : writer_state :=
  fold_left
    (fun st offset =>
       let '(ind, written) := st in
       let '(start, end_) := offset in
       (ind + 1, written ++ [formated_data ind term start end_]))
    offsets st.

(** The loop [for term in resultados.keys()], from [ind = 1] and an empty
    file. *)
Definition write_annotations (resultados : results_index) : list str :=
  snd (fold_left
         (fun st term =>
            match dict_get term resultados with
            | Some offsets => write_term term offsets st
            | None => st (* no such key: not reached, [term] is a key *)
            end)
         (keys resultados) (1, [])).

(** One document of [execute_annotator]: the lines written for [data]. *)
Definition annotate (T : Re.tables) (dje_data : list concept_record)
    (data : str) : option (list str) :=
  resultados <- search_in_dle T dje_data data [] default_termtype ;;
  Some (write_annotations resultados).

(* ================================================================== *)
(** ** Notions of the specification *)

(** What the resolver keeps of the spans of [K]. *)
Definition kept_offsets (data : results_index) (K : str)
    (offsets : list span) : list span :=
  filter (fun sp => negb (contained_elsewhereb data K sp)) offsets.


(** The last character of a word, if it has one. *)
Definition last_char (word : str) : option char :=
  match rev word with
  | [] => None
  | c :: _ => Some c
  end.

(** a, e, i, o, u and á, é, í, ó, ú *)
Definition unaccented_vowel (c : char) : bool :=
  existsb (N.eqb c) [97; 101; 105; 111; 117]%N.

Definition accented_vowel (c : char) : bool :=
  existsb (N.eqb c) [225; 233; 237; 243; 250]%N.

(** The plural of section 4.1 of the specification: the first rule that
    applies to the last character of the word. *)
Definition plural_form (word : str) : str :=
  match last_char word with
  | Some c =>
      if unaccented_vowel c then word ++ lit "s"
      else if accented_vowel c then removelast word ++ lit "es"
      else if (c =? 122)%N then removelast word ++ lit "ces"
      else word ++ lit "es"
  | None => word ++ lit "es"
  end.

(** The form of index [i] of a word: 0 is the word, 1 its plural. *)
Definition form (i : nat) (word : str) : str :=
  nth i (generate_inflections word) [].

(** The pattern made of the forms of index [i] of all the words. *)
Definition positional_pattern (i : nat) (words : list str) : str :=
  join (lit " ") (map (fun w => Re.escape (form i w)) words).

(** A member of the cross product: [picks] says, word by word, whether the
    plural is taken. *)
Fixpoint combination (words : list str) (picks : list bool) : list str :=
  match words, picks with
  | w :: ws, b :: bs => form (if b then 1 else 0) w :: combination ws bs
  | _, _ => []
  end.

(** A combination is mixed when it takes the plural of one word and the
    singular of another. *)
Definition mixed (words : list str) (picks : list bool) : Prop :=
  length picks = length words /\ In true picks /\ In false picks.

(** The pairs of a key and one of its spans, keys in the order of the
    index and spans in the order of their list. *)
Definition key_span_pairs (index : results_index) : list (str * span) :=
  flat_map (fun item => map (fun sp => (fst item, sp)) (snd item)) index.

(** The lines for [pairs], numbered from [ind]. *)
Fixpoint numbered_lines (ind : Z) (pairs : list (str * span)) : list str :=
  match pairs with
  | [] => []
  | (term, (start, end_)) :: rest =>
      formated_data ind term start end_ :: numbered_lines (ind + 1) rest
  end.

(** The text an escaped pattern stands for: every backslash goes, and the
    character it protects stays. *)
Fixpoint unescape (pattern : str) : str :=
  match pattern with
  | [] => []
  | c :: rest =>
      if (c =? Re.backslash)%N then
        match rest with
        | [] => []
        | d :: rest' => d :: unescape rest'
        end
      else c :: unescape rest
  end.

(** The alternatives of the group [(?:p1|...|pn)], as the texts to be
    found; a group without a pattern holds the empty alternative. *)
Definition literal_alternatives (patterns : list str) : list str :=
  match patterns with
  | [] => [[]]
  | _ => map unescape patterns
  end.

(** The pattern that looks for one of [alts] between two word
    boundaries. *)
Definition between_boundaries (alts : list str) : option Re.regex :=
  match alts with
  | [] => None
  | alt :: rest => Some (Re.bounded alt rest)
  end.

Section Scan.
Variable T : Re.tables.
Variable text : str.
Local Open Scope nat_scope.

(** [alt] stands at [pos], letter case apart. *)
Fixpoint literal_at (alt : str) (pos : nat) : bool :=
  match alt with
  | [] => true
  | c :: alt' =>
      match nth_error text pos with
      | Some t => Re.ci_match T c t && literal_at alt' (S pos)
      | None => false
      end
  end.

(** [alt] stands at [pos] and a word boundary follows it. *)
Definition alternative_at (pos : nat) (alt : str) : bool :=
  literal_at alt pos && Re.at_boundary T text (pos + length alt).

(** The end of the match that starts at [pos]: there is a word boundary
    at [pos], and the first alternative, in their order, that stands at
    [pos] before a word boundary is taken. *)
Definition first_alternative (alts : list str) (pos : nat) : option nat :=
  if Re.at_boundary T text pos then
    match find (alternative_at pos) alts with
    | Some alt => Some (pos + length alt)
    | None => None
    end
  else None.

(** The scan of section 4.3: the positions are visited from left to
    right, [pos] first and the [n] positions after it; a position before
    [resume], the end of the last match, is passed over. *)
Fixpoint scan (alts : list str) (n pos resume : nat) : list (nat * nat) :=
  match (if pos <? resume then None else first_alternative alts pos) with
  | Some e =>
      (pos, e) :: match n with
                  | O => []
                  | S n' => scan alts n' (S pos) e
                  end
  | None =>
      match n with
      | O => []
      | S n' => scan alts n' (S pos) resume
      end
  end.

(** A match as [find_offsets_and_forms] reports it. *)
Definition found_at (m : nat * nat) : found :=
  ((Z.of_nat (fst m), Z.of_nat (snd m)), slice text (fst m) (snd m)).

(** The matches of the alternatives [alts] in the whole text. *)
Definition scan_text (alts : list str) : list found :=
  map found_at (scan alts (length text) 0 0).

End Scan.

(** The first result that some element of a list gives. *)
Fixpoint first_some {A B : Type} (f : A -> option B) (l : list A)
    : option B :=
  match l with
  | [] => None
  | x :: rest =>
      match f x with
      | Some y => Some y
      | None => first_some f rest
      end
  end.

(** Alternatives that are all empty or all not empty: no position then
    has both an empty match and one that is not. *)
Definition uniform (alts : list str) : Prop :=
  Forall (fun alt => alt <> []) alts \/ Forall (fun alt => alt = []) alts.

(** The matches of an expression in a text, by the scan of section 4.3
    over the texts of its patterns. *)
Definition term_matches (T : Re.tables) (text expression : str) : list found :=
  scan_text T text (literal_alternatives (build_inflected_patterns expression)).

(** The position [pos] lies strictly inside a run of word characters:
    the characters before and after it are both word characters. *)
Definition splits_word (T : Re.tables) (text : str) (pos : nat) : Prop :=
  exists q c d,
    pos = S q /\ nth_error text q = Some c /\ nth_error text pos = Some d /\
    Re.is_word T c = true /\ Re.is_word T d = true.

(** An entry takes part in the scan when the tag is among the [Type]
    values of its [Body]. *)
Definition eligible (termtype : str) (record : concept_record) : bool :=
  existsb (str_eqb termtype) (map DomainType (Body record)).

(** The terms of an entry in the order they are scanned: its subterms,
    when it has any, then its name. *)
Definition terms_of (record : concept_record) : list str :=
  match SubLemas record with
  | Some subterms => map Text subterms
  | None => []
  end ++ [Name record].

(** The terms scanned for a lexicon, in order. *)
Definition scanned_terms (termtype : str) (dje_data : list concept_record)
    : list str :=
  flat_map (fun record => if eligible termtype record then terms_of record
                          else [])
    dje_data.

(** The spans of the matches whose text is [key], in their order. *)
Definition spans_of (key : str) (found_here : list found) : list span :=
  map fst (filter (fun m => str_eqb (snd m) key) found_here).

(** The list of a key after more spans were recorded for it. *)
Definition extended (before : option (list span)) (more : list span)
    : option (list span) :=
  match before, more with
  | None, [] => None
  | None, _ => Some more
  | Some offsets, _ => Some (offsets ++ more)
  end.

(** The texts of [forms] that are not in [seen], each once, in the order
    they are first met. *)
Fixpoint new_keys (seen : list str) (forms : list str) : list str :=
  match forms with
  | [] => []
  | f :: rest =>
      if existsb (str_eqb f) seen then new_keys seen rest
      else f :: new_keys (seen ++ [f]) rest
  end.

(** A property of all the pairs of a key and one of its spans. *)
Definition index_all (P : str -> span -> Prop) (index : results_index)
    : Prop :=
  forall key offsets sp, In (key, offsets) index -> In sp offsets -> P key sp.

(** The invariant of the data model as the index keeps it: the span lies
    in the text and the key is the text at the span. *)
Definition substring_at (text : str) (key : str) (sp : span) : Prop :=
  0 <= fst sp <= snd sp /\ snd sp <= Z.of_nat (length text) /\
  slice text (Z.to_nat (fst sp)) (Z.to_nat (snd sp)) = key.

(** The invariant as the specification states it, with a span that is
    not empty. *)
Definition nonempty_substring_at (text : str) (key : str) (sp : span) : Prop :=
  0 <= fst sp < snd sp /\ snd sp <= Z.of_nat (length text) /\
  slice text (Z.to_nat (fst sp)) (Z.to_nat (snd sp)) = key.

(** The length of a joined list: the lengths of its parts and of the
    separators between them. *)
Fixpoint total_length (parts : list str) : nat :=
  match parts with
  | [] => 0
  | p :: rest => length p + total_length rest
  end.

(** [p] is read by [parse_group], and undone by [unescape], as the
    literal text [raw]. *)
Definition literal_pattern (p raw : str) : Prop :=
  (forall tail cur alts,
      Re.parse_group (p ++ tail) cur alts =
      Re.parse_group tail (cur ++ raw) alts) /\
  (forall rest, unescape (p ++ rest) = raw ++ unescape rest).

(* ================================================================== *)
(** ** Example data *)

(** An index with one span under two keys (section 8). *)
Definition two_keys_one_span : results_index :=
  [(lit "A", [(2, 8)]); (lit "B", [(2, 8)])].

(** An index whose only key holds a span inside another of its spans. *)
Definition one_key_nested : results_index :=
  [(lit "A", [(0, 5); (0, 10)])].

(** An index with the span of one key inside the span of another
    (section 8). *)
Definition short_in_long : results_index :=
  [(lit "A", [(0, 5)]); (lit "B", [(0, 10)])].

(** The index of the end-to-end example of section 8. *)
Definition two_terms : results_index :=
  [(lit "arbitraje", [(3, 12)]); (lit "arbitrajes", [(39, 49)])].

(** A lexicon whose only entry has a subterm made of one space. *)
Definition blank_subterm_lexicon : list concept_record :=
  [{| Name := lit "ley"; SubLemas := Some [{| Text := lit " " |}];
      Body := [{| DomainType := lit "Lab." |}] |}].

(** A lexicon whose only entry has the empty string as its name. *)
Definition nameless_lexicon : list concept_record :=
  [{| Name := []; SubLemas := None;
      Body := [{| DomainType := lit "Lab." |}] |}].

(* ================================================================== *)
(** ** The loop over the documents: [execute_annotator] *)

(** [name.rfind(c)], counting from [i]; [last] is the last index found. *)
Fixpoint rfind_from (c : char) (name : str) (i : nat) (last : option nat)
    : option nat :=
  match name with
  | [] => last
  | x :: rest => rfind_from c rest (S i) (if (x =? c)%N then Some i else last)
  end.

Definition rfind (c : char) (name : str) : option nat :=
  rfind_from c name 0 None.

Definition dot : char := 46%N.

(** [Path.suffix] and [Path.stem] of pathlib for a path whose last
    component is [name]: the name is cut at its last dot when that dot is
    neither its first nor its last character. *)
Definition suffix (name : str) : str :=
  match rfind dot name with
  | Some i =>
      if ((0 <? i) && (i <? length name - 1))%nat then skipn i name else []
  | None => []
  end.

Definition stem (name : str) : str :=
  match rfind dot name with
  | Some i =>
      if ((0 <? i) && (i <? length name - 1))%nat then firstn i name
      else name
  | None => name
  end.

(** An entry of the directory of the documents as the loop sees it: its
    name, whether it is a regular file, and the text read from it.  The
    errors of reading, decoding and writing files are outside the
    model. *)
Record dir_entry : Type := {
  entry_name : str;
  entry_is_file : bool;
  entry_data : str
}.

(** [path.is_file() and path.suffix == '.txt'] *)
Definition is_document (entry : dir_entry) : bool :=
  entry_is_file entry && str_eqb (suffix (entry_name entry)) (lit ".txt").

(** The loop [for path in Path(path_articulos).iterdir()] over the
    entries in the order [iterdir] gives them, the lexicon being loaded:
    the files written, each with its name in the output directory and
    its lines.  What the loop prints is left out. *)
Fixpoint execute_annotator (T : Re.tables) (dje_data : list concept_record)
    (entries : list dir_entry) : option (list (str * list str)) :=
  match entries with
  | [] => Some []
  | path :: rest =>
      if is_document path then
        written <- annotate T dje_data (entry_data path) ;;
        let file_name := stem (entry_name path) ++ lit ".ann" in
        others <- execute_annotator T dje_data rest ;;
        Some ((file_name, written) :: others)
      else execute_annotator T dje_data rest
  end.

(* ================================================================== *)
(** ** Further notions *)

(** The pattern characters [c] and [c'] match the same characters of a
    text, as two cases of one letter do under [re.IGNORECASE]. *)
Definition same_letter (T : Re.tables) (c c' : char) : Prop :=
  forall t, Re.ci_match T c t = Re.ci_match T c' t.

(** Two expressions that differ in the case of their letters only. *)
Definition same_letters (T : Re.tables) (e e' : str) : Prop :=
  Forall2 (same_letter T) e e'.

(** The lines written for a document: the index filled from the empty
    index with the matches of the terms scanned for ['Lab.'], resolved
    and written. *)
Definition annotation_lines (T : Re.tables) (dje_data : list concept_record)
    (data : str) : list str :=
  write_annotations
    (filter_offsets_across_words
       (record_results []
          (flat_map (term_matches T data)
             (scanned_terms default_termtype dje_data)))).

(* ================================================================== *)
(** ** DictionaryScanner on an index whose lists are objects

    [results[form].append(positions)] extends a list object in place:
    when two keys of the index given hold one list object, both see the
    span.  Here an index gives, for each key, the identity of its list
    object, and the content of each object; [search_in_dle] above, on
    lists held by value, is what this one does on an index of which no
    two keys hold one object (lemma [search_in_dle_by_value]). *)

Module Shared.

Record index : Type := {
  refs : dict nat;              (* the list object of each key *)
  heap : nat -> list span       (* the content of each list object *)
}.

(** [{}] *)
Definition empty : index := {| refs := []; heap := fun _ => [] |}.

(** The dictionary as it is read: each key with the content of its
    list. *)
Definition view (results : index) : results_index :=
  map (fun item => (fst item, heap results (snd item))) (refs results).

(** The identity of a new object: one that no key holds. *)
Definition fresh (r : dict nat) : nat :=
  S (fold_right Nat.max 0%nat (map snd r)).

(** The content of the object [l] becomes [v]. *)
Definition update (h : nat -> list span) (l : nat) (v : list span)
    : nat -> list span :=
  fun l' => if (l' =? l)%nat then v else h l'.

(** Lines 114-117 and 122-125:
    [if form not in results.keys(): results[form] = [positions]
     else: results[form].append(positions)] *)
Definition record_result (results : index) (result : found) : index :=
  let '(positions, form) := result in
  match dict_get form (refs results) with
  | None =>
      (* a new list object under a new key *)
      let l := fresh (refs results) in
      {| refs := dict_set form l (refs results);
         heap := update (heap results) l [positions] |}
  | Some l =>
      (* the list object of the key is extended *)
      {| refs := refs results;
         heap := update (heap results) l (heap results l ++ [positions]) |}
  end.

Definition record_results (results : index) (found_here : list found)
    : index :=
  fold_left record_result found_here results.

(** The loop [for subterm_info in concept_record['SubLemas']]. *)
Fixpoint scan_subterms (T : Re.tables) (text : str)
    (subterms : list subterm_info) (results : index) : option index :=
  match subterms with
  | [] => Some results
  | subterm_info :: rest =>
      let subterm := Text subterm_info in
      subterm_results <- find_offsets_and_forms T text subterm ;;
      scan_subterms T text rest (record_results results subterm_results)
  end.

(** The body of the loop over the lexicon, for one record. *)
Definition scan_record (T : Re.tables) (text : str) (termtype : str)
    (concept_record : concept_record) (results : index) : option index :=
  let domains := map DomainType (Body concept_record) in
  if existsb (str_eqb termtype) domains then
    results <-
      match SubLemas concept_record with
      | Some subterms => scan_subterms T text subterms results
      | None => Some results
      end ;;
    term_results <- find_offsets_and_forms T text (Name concept_record) ;;
    Some (record_results results term_results)
  else Some results.

(** The loop [for concept_record in dje_data]: the index of the caller
    as the loop leaves it. *)
Fixpoint scan_records (T : Re.tables) (text : str) (termtype : str)
    (dje_data : list concept_record) (results : index) : option index :=
  match dje_data with
  | [] => Some results
  | concept_record :: rest =>
      results <- scan_record T text termtype concept_record results ;;
      scan_records T text termtype rest results
  end.

(** [search_in_dle]: the dictionary returned is a new one, with lists of
    its own. *)
Definition search_in_dle (T : Re.tables) (dje_data : list concept_record)
    (text : str) (results : index) (termtype : str)
    : option results_index :=
  results <- scan_records T text termtype dje_data results ;;
  Some (filter_offsets_across_words (view results)).

(** The keys [k] and [f] hold one list: one object if both are keys of
    the index; a key that is made later gets a list of its own. *)
Definition same_list (results : index) (k f : str) : bool :=
  match dict_get k (refs results), dict_get f (refs results) with
  | Some l, Some l' => (l =? l')%nat
  | _, _ => str_eqb k f
  end.

(** No two keys hold one list object. *)
Definition unshared (results : index) : Prop :=
  NoDup (map snd (refs results)).

End Shared.

(** The index with the keys ['ley'] and ['leyes'] on one empty list. *)
Definition one_list_two_keys : Shared.index :=
  {| Shared.refs := [(lit "ley", 0%nat); (lit "leyes", 0%nat)];
     Shared.heap := fun _ => [] |}.

(** A lexicon whose only entry is the term ['ley']. *)
Definition ley_lexicon : list concept_record :=
  [{| Name := lit "ley"; SubLemas := None;
      Body := [{| DomainType := lit "Lab." |}] |}].

(** Closes [dict_wf] for a dictionary given by its entries. *)
Ltac solve_wf :=
  unfold dict_wf, keys; simpl;
  repeat (constructor; [simpl; intuition discriminate|]); constructor.

(* ================================================================== *)
(** * Properties *)

(** *** String equality *)

Lemma str_eqb_eq (a b : str) : str_eqb a b = true <-> a = b.
Proof.
  revert b; induction a as [|x a IH]; intros [|y b]; simpl; split;
    try congruence; try discriminate.
  - rewrite andb_true_iff. intros [Hxy Hab].
    apply N.eqb_eq in Hxy. apply IH in Hab. congruence.
  - intros E; injection E as -> ->.
    rewrite andb_true_iff; split; [apply N.eqb_refl | now apply IH].
Qed.

Lemma str_eqb_refl (a : str) : str_eqb a a = true.
Proof. now apply str_eqb_eq. Qed.

Lemma str_eqb_neq (a b : str) : str_eqb a b = false <-> a <> b.
Proof.
  split.
  - intros H E. apply str_eqb_eq in E. congruence.
  - intros H. destruct (str_eqb a b) eqn:E; [|reflexivity].
    apply str_eqb_eq in E. contradiction.
Qed.

Lemma str_eq_dec (a b : str) : {a = b} + {a <> b}.
Proof. apply list_eq_dec, N.eq_dec. Defined.

(* ------------------------------------------------------------------ *)
(** *** Dictionary lemmas *)

Section DictFacts.
Context {V : Type}.
Implicit Types (d : dict V) (k : str) (v : V).

Lemma dict_get_In k v d : dict_get k d = Some v -> In (k, v) d.
Proof.
  induction d as [|[k' v'] d IH]; simpl; [discriminate|].
  destruct (str_eqb k k') eqn:E.
  - apply str_eqb_eq in E. intros [= ->]. left; congruence.
  - intros H; right; auto.
Qed.

Lemma In_dict_get k v d : dict_wf d -> In (k, v) d -> dict_get k d = Some v.
Proof.
  unfold dict_wf, keys.
  induction d as [|[k' v'] d IH]; simpl; [tauto|].
  intros Hnd [E | Hin].
  - injection E as -> ->. now rewrite str_eqb_refl.
  - inversion Hnd as [|? ? Hni Hnd']; subst.
    destruct (str_eqb k k') eqn:E.
    + apply str_eqb_eq in E; subst k'.
      exfalso; apply Hni. apply in_map_iff. now exists (k, v).
    + auto.
Qed.

Lemma dict_mem_keys k d : dict_mem k d = true <-> In k (keys d).
Proof.
  unfold dict_mem, keys.
  induction d as [|[k' v'] d IH]; simpl; [split; [discriminate | tauto]|].
  destruct (str_eqb k k') eqn:E.
  - apply str_eqb_eq in E. split; auto.
  - apply str_eqb_neq in E. rewrite IH. split; [auto | intros [?|?]; congruence].
Qed.

Lemma dict_set_fresh k v d :
  ~ In k (keys d) -> dict_set k v d = d ++ [(k, v)].
Proof.
  unfold keys.
  induction d as [|[k' v'] d IH]; simpl; [reflexivity|].
  intros Hni. destruct (str_eqb k k') eqn:E.
  - apply str_eqb_eq in E. exfalso; apply Hni; left; congruence.
  - f_equal. apply IH. tauto.
Qed.

Lemma keys_dict_set_mem k v d :
  In k (keys d) -> keys (dict_set k v d) = keys d.
Proof.
  unfold keys.
  induction d as [|[k' v'] d IH]; simpl; [tauto|].
  intros Hin. destruct (str_eqb k k') eqn:E; simpl; [reflexivity|].
  f_equal. apply IH. apply str_eqb_neq in E.
  destruct Hin; congruence.
Qed.

Lemma dict_get_set_same k v d : dict_get k (dict_set k v d) = Some v.
Proof.
  induction d as [|[k' v'] d IH]; simpl.
  - now rewrite str_eqb_refl.
  - destruct (str_eqb k k') eqn:E; simpl; rewrite E; auto.
Qed.

Lemma dict_get_set_other k k2 v d :
  k2 <> k -> dict_get k2 (dict_set k v d) = dict_get k2 d.
Proof.
  intros Hne.
  induction d as [|[k' v'] d IH]; simpl.
  - apply str_eqb_neq in Hne. now rewrite Hne.
  - destruct (str_eqb k k') eqn:E; simpl.
    + apply str_eqb_eq in E; subst k'.
      apply str_eqb_neq in Hne. now rewrite Hne.
    + now rewrite IH.
Qed.
End DictFacts.

(* ------------------------------------------------------------------ *)
(** *** OverlapResolver *)

Lemma inside_spec (start1 end1 start2 end2 : Z) :
  inside start1 end1 start2 end2 = true <-> start1 >= start2 /\ end1 <= end2.
Proof.
  unfold inside. rewrite andb_true_iff, Z.geb_le, Z.leb_le. lia.
Qed.

(** The [break] of the inner loop leaves the flag as a scan to the end of
    the list would. *)
Lemma scan_other_offsets_existsb start1 end1 other_offsets is_contained :
  scan_other_offsets start1 end1 other_offsets is_contained =
  is_contained ||
  existsb (fun o => inside start1 end1 (fst o) (snd o)) other_offsets.
Proof.
  revert is_contained.
  induction other_offsets as [|[start2 end2] rest IH]; intros b; simpl.
  - now rewrite orb_false_r.
  - destruct (inside start1 end1 start2 end2); simpl.
    + destruct (end2 - start2 >? end1 - start1).
      * now rewrite orb_true_r.
      * rewrite IH. simpl. now rewrite orb_true_r.
    + apply IH.
Qed.

Lemma scan_other_words_existsb K start1 end1 items is_contained :
  scan_other_words K start1 end1 items is_contained =
  is_contained ||
  existsb
    (fun item =>
       negb (str_eqb K (fst item)) &&
       existsb (fun o => inside start1 end1 (fst o) (snd o)) (snd item))
    items.
Proof.
  revert is_contained.
  induction items as [|[other_word other_offsets] rest IH]; intros b; simpl.
  - now rewrite orb_false_r.
  - destruct (str_eqb K other_word); simpl.
    + apply IH.
    + rewrite IH, scan_other_offsets_existsb. now rewrite orb_assoc.
Qed.

Lemma contained_elsewhereb_spec data K sp :
  contained_elsewhereb data K sp = true <-> contained_elsewhere data K sp.
Proof.
  unfold contained_elsewhereb, contained_elsewhere.
  rewrite existsb_exists. split.
  - intros [[K2 offsets2] [Hin H]]. simpl in H.
    apply andb_true_iff in H as [Hne Hex].
    apply negb_true_iff, str_eqb_neq in Hne.
    apply existsb_exists in Hex as [[start2 end2] [Hin2 Hins]].
    simpl in Hins. apply inside_spec in Hins.
    exists K2, offsets2, start2, end2. repeat split; auto; try tauto.
  - intros (K2 & offsets2 & start2 & end2 & Hin & Hne & Hin2 & Hs & He).
    exists (K2, offsets2). split; [assumption|]. simpl.
    apply andb_true_iff. split.
    + apply negb_true_iff, str_eqb_neq. congruence.
    + apply existsb_exists. exists (start2, end2). split; [assumption|].
      simpl. now apply inside_spec.
Qed.

Lemma filter_current_offsets_acc data K offsets (acc : list span) :
  fold_left
    (fun filtered_offsets current_offset =>
       let '(start1, end1) := current_offset in
       if scan_other_words K start1 end1 data false
       then filtered_offsets
       else filtered_offsets ++ [current_offset])
    offsets acc =
  acc ++ filter (fun sp => negb (contained_elsewhereb data K sp)) offsets.
Proof.
  revert acc.
  induction offsets as [|[start1 end1] rest IH]; intros acc; simpl.
  - now rewrite app_nil_r.
  - rewrite scan_other_words_existsb. simpl.
    change (existsb _ data) with (contained_elsewhereb data K (start1, end1)).
    destruct (contained_elsewhereb data K (start1, end1)); simpl.
    + apply IH.
    + rewrite IH. now rewrite <- app_assoc.
Qed.

Lemma filter_current_offsets_filter data K offsets :
  filter_current_offsets data K offsets =
  filter (fun sp => negb (contained_elsewhereb data K sp)) offsets.
Proof. apply filter_current_offsets_acc. Qed.

Lemma fold_dict_set_fresh {V W : Type} (g : str -> V -> W)
    (items : dict V) (acc : dict W) :
  NoDup (keys acc ++ keys items) ->
  fold_left
    (fun filtered item =>
       let '(k, v) := item in dict_set k (g k v) filtered)
    items acc =
  acc ++ map (fun item => (fst item, g (fst item) (snd item))) items.
Proof.
  revert acc. induction items as [|[k v] rest IH]; intros acc Hnd; simpl.
  - now rewrite app_nil_r.
  - simpl in Hnd.
    assert (Hk : ~ In k (keys acc)).
    { apply NoDup_remove_2 in Hnd. intros Hin. apply Hnd.
      apply in_or_app. now left. }
    rewrite dict_set_fresh by assumption.
    rewrite IH.
    + now rewrite <- app_assoc.
    + unfold keys in *. rewrite map_app. simpl.
      rewrite <- app_assoc. simpl.
      apply NoDup_remove_1 in Hnd as Hnd1.
      apply NoDup_remove_2 in Hnd as Hnd2.
      clear IH. revert Hnd1 Hnd2.
      generalize (map fst acc) as ka. generalize (map fst rest) as kr.
      intros kr ka. induction ka as [|a ka IHka]; simpl; intros H1 H2.
      * constructor; assumption.
      * inversion H1 as [|? ? Ha Hr]; subst. constructor.
        -- rewrite in_app_iff in *. simpl. intros [?|[?|?]]; subst; tauto.
        -- apply IHka; [assumption | tauto].
Qed.

Lemma filter_offsets_across_words_map data :
  dict_wf data ->
  filter_offsets_across_words data =
  map (fun item => (fst item, kept_offsets data (fst item) (snd item))) data.
Proof.
  intros Hwf. unfold filter_offsets_across_words.
  rewrite (fold_dict_set_fresh (filter_current_offsets data)) by exact Hwf.
  simpl. apply map_ext. intros [k v]. simpl.
  now rewrite filter_current_offsets_filter.
Qed.

Lemma keys_filter_offsets_across_words data :
  dict_wf data -> keys (filter_offsets_across_words data) = keys data.
Proof.
  intros Hwf. rewrite filter_offsets_across_words_map by assumption.
  unfold keys. rewrite map_map. reflexivity.
Qed.

Lemma dict_get_filter_offsets_across_words data K offsets :
  dict_wf data -> In (K, offsets) data ->
  dict_get K (filter_offsets_across_words data) =
  Some (kept_offsets data K offsets).
Proof.
  intros Hwf Hin.
  apply In_dict_get.
  - unfold dict_wf. now rewrite keys_filter_offsets_across_words.
  - rewrite filter_offsets_across_words_map by assumption.
    apply in_map_iff. now exists (K, offsets).
Qed.

Lemma Subseq_filter {A : Type} (f : A -> bool) (l : list A) :
  Subseq (filter f l) l.
Proof.
  induction l as [|x l IH]; simpl; [constructor|].
  destruct (f x); now constructor.
Qed.

(** C1. The resolver drops a span of key [K] exactly when a span recorded
    under another key contains it ([start1 >= start2] and
    [end1 <= end2]); no comparison of lengths enters the decision.  A
    span recorded under two keys is dropped from both. *)
Theorem overlap_drop_iff (data : results_index) (K : str)
    (offsets : list span) :
  dict_wf data -> In (K, offsets) data ->
  exists kept,
    dict_get K (filter_offsets_across_words data) = Some kept /\
    (exists keep : span -> bool,
        kept = filter keep offsets /\
        forall sp, keep sp = false <-> contained_elsewhere data K sp) /\
    (forall sp, In sp offsets ->
        (~ In sp kept <-> contained_elsewhere data K sp)) /\
    (forall K2 offsets2 sp,
        K2 <> K -> In (K2, offsets2) data ->
        In sp offsets -> In sp offsets2 ->
        ~ In sp kept /\
        exists kept2,
          dict_get K2 (filter_offsets_across_words data) = Some kept2 /\
          ~ In sp kept2).
Proof.
  intros Hwf Hin.
  exists (kept_offsets data K offsets).
  assert (Hdrop : forall K' offsets' sp,
             In sp offsets' ->
             (~ In sp (kept_offsets data K' offsets') <->
              contained_elsewhere data K' sp)).
  { intros K' offsets' sp Hsp. unfold kept_offsets.
    rewrite filter_In, <- contained_elsewhereb_spec.
    destruct (contained_elsewhereb data K' sp); simpl; intuition congruence. }
  assert (Hsame : forall Ka Kb offa offb sp,
             Ka <> Kb -> In (Kb, offb) data ->
             In sp offa -> In sp offb ->
             ~ In sp (kept_offsets data Ka offa)).
  { intros Ka Kb offa offb [s e] Hne Hb Hspa Hspb.
    apply Hdrop; [assumption|].
    exists Kb, offb, s, e. simpl. repeat split; auto; try lia. }
  split; [now apply dict_get_filter_offsets_across_words|].
  split; [|split].
  - exists (fun sp => negb (contained_elsewhereb data K sp)).
    split; [reflexivity|].
    intros sp. rewrite negb_false_iff. apply contained_elsewhereb_spec.
  - intros sp Hsp. now apply Hdrop.
  - intros K2 offsets2 sp Hne Hin2 Hsp Hsp2. split.
    + apply (Hsame K K2 offsets offsets2); auto.
    + exists (kept_offsets data K2 offsets2). split.
      * now apply dict_get_filter_offsets_across_words.
      * apply (Hsame K2 K offsets2 offsets); auto.
Qed.

Lemma overlap_drop_iff_witness :
  dict_wf two_keys_one_span /\
  In (lit "A", [(2, 8)]) two_keys_one_span /\
  exists kept,
    dict_get (lit "A") (filter_offsets_across_words two_keys_one_span)
      = Some kept /\
    (exists keep : span -> bool,
        kept = filter keep [(2, 8)] /\
        forall sp, keep sp = false <->
                   contained_elsewhere two_keys_one_span (lit "A") sp) /\
    (forall sp, In sp [(2, 8)] ->
        (~ In sp kept <->
         contained_elsewhere two_keys_one_span (lit "A") sp)) /\
    (forall K2 offsets2 sp,
        K2 <> lit "A" -> In (K2, offsets2) two_keys_one_span ->
        In sp [(2, 8)] -> In sp offsets2 ->
        ~ In sp kept /\
        exists kept2,
          dict_get K2 (filter_offsets_across_words two_keys_one_span)
            = Some kept2 /\
          ~ In sp kept2).
Proof.
  assert (Hwf : dict_wf two_keys_one_span) by solve_wf.
  assert (Hin : In (lit "A", [(2, 8)]) two_keys_one_span)
    by (left; reflexivity).
  split; [exact Hwf|]. split; [exact Hin|].
  exact (overlap_drop_iff two_keys_one_span (lit "A") [(2, 8)] Hwf Hin).
Defined.

(** C8. A span is never removed because of a span of its own key: when
    every span of the index that contains it is recorded under its own
    key, the resolver keeps it. *)
Theorem overlap_same_key_kept (data : results_index) (K : str)
    (offsets : list span) (sp : span) :
  dict_wf data -> In (K, offsets) data -> In sp offsets ->
  (forall K2 offsets2 start2 end2,
      In (K2, offsets2) data -> In (start2, end2) offsets2 ->
      fst sp >= start2 -> snd sp <= end2 -> K2 = K) ->
  exists kept,
    dict_get K (filter_offsets_across_words data) = Some kept /\
    In sp kept.
Proof.
  intros Hwf Hin Hsp Hown.
  exists (kept_offsets data K offsets). split.
  - now apply dict_get_filter_offsets_across_words.
  - unfold kept_offsets. apply filter_In. split; [assumption|].
    apply negb_true_iff.
    destruct (contained_elsewhereb data K sp) eqn:E; [|reflexivity].
    apply contained_elsewhereb_spec in E.
    destruct E as (K2 & offsets2 & start2 & end2 & H1 & Hne & H2 & Hs & He).
    exfalso. apply Hne. now apply (Hown K2 offsets2 start2 end2).
Qed.

Lemma overlap_same_key_kept_witness :
  exists kept,
    dict_get (lit "A") (filter_offsets_across_words one_key_nested)
      = Some kept /\
    In (0, 5) kept.
Proof.
  apply (overlap_same_key_kept one_key_nested (lit "A") [(0, 5); (0, 10)]).
  - solve_wf.
  - left; reflexivity.
  - left; reflexivity.
  - intros K2 offsets2 start2 end2 [E | []] _ _ _. now inversion E.
Defined.

Lemma span_eq_dec (a b : span) : {a = b} + {a <> b}.
Proof. decide equality; apply Z.eq_dec. Defined.

(** A span that a filter keeps is kept as many times as it was there. *)
Lemma count_occ_filter_kept (keep : span -> bool) (l : list span)
    (sp : span) :
  keep sp = true ->
  count_occ span_eq_dec (filter keep l) sp = count_occ span_eq_dec l sp.
Proof.
  intros Hk. induction l as [|x l IH]; simpl; [reflexivity|].
  destruct (span_eq_dec x sp) as [-> | Hne].
  - rewrite Hk. simpl. destruct (span_eq_dec sp sp); congruence.
  - destruct (keep x); simpl; [|exact IH].
    destruct (span_eq_dec x sp); congruence.
Qed.

(** C10. The resolver returns the keys of its input, in their order;
    the list of each key is the list it had without some of its spans:
    what is kept is chosen span by span, by the value of the span, so
    that the order stays and a span kept is kept as many times as it
    was there; a key that loses all its spans stays, with the empty
    list. *)
Theorem overlap_shape (data : results_index) :
  dict_wf data ->
  keys (filter_offsets_across_words data) = keys data /\
  Forall2 (fun item_in item_out =>
             fst item_out = fst item_in /\
             Subseq (snd item_out) (snd item_in) /\
             exists keep : span -> bool,
               snd item_out = filter keep (snd item_in))
          data (filter_offsets_across_words data) /\
  (forall K offsets,
      In (K, offsets) data ->
      exists kept,
        dict_get K (filter_offsets_across_words data) = Some kept /\
        Subseq kept offsets /\
        (exists keep : span -> bool, kept = filter keep offsets) /\
        (forall sp, In sp kept ->
                    count_occ span_eq_dec kept sp =
                    count_occ span_eq_dec offsets sp) /\
        ((forall sp, In sp offsets -> contained_elsewhere data K sp) ->
         kept = [])).
Proof.
  intros Hwf. split; [now apply keys_filter_offsets_across_words|]. split.
  - rewrite filter_offsets_across_words_map by assumption.
    generalize data at 2 as whole. intros whole.
    induction data as [|[k v] rest IH]; simpl; constructor.
    + simpl. split; [reflexivity|]. split; [apply Subseq_filter|].
      now exists (fun sp => negb (contained_elsewhereb whole k sp)).
    + apply IH. unfold dict_wf, keys in *. simpl in Hwf.
      now inversion Hwf.
  - intros K offsets Hin. exists (kept_offsets data K offsets).
    split; [now apply dict_get_filter_offsets_across_words|].
    split; [apply Subseq_filter|].
    split; [now exists (fun sp => negb (contained_elsewhereb data K sp))|].
    split.
    + intros sp Hsp. unfold kept_offsets in *.
      apply filter_In in Hsp as [_ Hkeep].
      now apply count_occ_filter_kept.
    + intros Hall. unfold kept_offsets.
      induction offsets as [|sp rest IH] in Hall |- *; simpl; [reflexivity|].
      assert (E : contained_elsewhereb data K sp = true).
      { apply contained_elsewhereb_spec, Hall. now left. }
      rewrite E. simpl. apply IH. intros sp' Hsp'. apply Hall. now right.
Qed.

Lemma overlap_shape_witness :
  keys (filter_offsets_across_words short_in_long) = keys short_in_long /\
  Forall2 (fun item_in item_out =>
             fst item_out = fst item_in /\
             Subseq (snd item_out) (snd item_in) /\
             exists keep : span -> bool,
               snd item_out = filter keep (snd item_in))
          short_in_long (filter_offsets_across_words short_in_long) /\
  (forall K offsets,
      In (K, offsets) short_in_long ->
      exists kept,
        dict_get K (filter_offsets_across_words short_in_long)
          = Some kept /\
        Subseq kept offsets /\
        (exists keep : span -> bool, kept = filter keep offsets) /\
        (forall sp, In sp kept ->
                    count_occ span_eq_dec kept sp =
                    count_occ span_eq_dec offsets sp) /\
        ((forall sp, In sp offsets ->
                     contained_elsewhere short_in_long K sp) ->
         kept = [])).
Proof. apply (overlap_shape short_in_long). solve_wf. Defined.

(* ------------------------------------------------------------------ *)
(** *** InflectionGenerator *)

Lemma last_char_snoc (w : str) (x : char) : last_char (w ++ [x]) = Some x.
Proof. unfold last_char. now rewrite rev_unit. Qed.

Lemma endswith_single (word : str) (c : char) :
  endswith word [c] =
  match last_char word with Some x => N.eqb x c | None => false end.
Proof.
  destruct word as [|a w] using rev_ind; [reflexivity|].
  rewrite last_char_snoc. unfold endswith.
  rewrite length_app.
  change (length [a]) with 1%nat. change (length [c]) with 1%nat.
  replace (length w + 1 - 1)%nat with (length w + 0)%nat by lia.
  rewrite skipn_app, Nat.add_0_r, skipn_all.
  replace (length w - length w)%nat with 0%nat by lia.
  replace (1 <=? length w + 1)%nat with true
    by (symmetry; apply Nat.leb_le; lia).
  simpl. unfold char_eqb. now rewrite andb_true_r.
Qed.

Lemma endswith_any_singles (word : str) (cs : list char) :
  endswith_any word (map (fun c => [c]) cs) =
  match last_char word with Some x => existsb (N.eqb x) cs | None => false end.
Proof.
  unfold endswith_any.
  induction cs as [|c cs IH]; simpl.
  - now destruct (last_char word).
  - rewrite IH, endswith_single. now destruct (last_char word).
Qed.

Lemma generate_inflections_eq (word : str) :
  generate_inflections word = [word; plural_form word].
Proof.
  unfold generate_inflections, plural_form.
  change vowels with (map (fun c : char => [c]) [97; 101; 105; 111; 117]%N).
  change accented_vowels
    with (map (fun c : char => [c]) [225; 233; 237; 243; 250]%N).
  change (lit "z") with [122%N].
  rewrite !endswith_any_singles, endswith_single.
  unfold unaccented_vowel, accented_vowel, drop_last.
  destruct (last_char word) as [c|]; [|reflexivity].
  destruct (existsb (N.eqb c) [97; 101; 105; 111; 117]%N); [reflexivity|].
  destruct (existsb (N.eqb c) [225; 233; 237; 243; 250]%N); [reflexivity|].
  destruct (c =? 122)%N; reflexivity.
Qed.

(** C3. [generate_inflections] returns the word and its plural, the
    plural being given by the first rule that applies to the last
    character: an unaccented vowel adds "s"; an accented vowel is dropped
    and "es" added; a final "z" is dropped and "ces" added; any other
    word gets "es".  So "mesa" gives "mesas", "juez" gives "jueces",
    "ley" gives "leyes" and "café" gives "cafes". *)
Theorem generate_inflections_rule :
  (forall word, generate_inflections word = [word; plural_form word]) /\
  generate_inflections (lit "mesa") = [lit "mesa"; lit "mesas"] /\
  generate_inflections (lit "juez") = [lit "juez"; lit "jueces"] /\
  generate_inflections (lit "ley") = [lit "ley"; lit "leyes"] /\
  generate_inflections (lit "caf" ++ [233%N]) =
    [lit "caf" ++ [233%N]; lit "cafes"].
Proof.
  split; [exact generate_inflections_eq | repeat split; reflexivity].
Qed.

(* ------------------------------------------------------------------ *)
(** *** PatternBuilder *)

Lemma form_0 (word : str) : form 0 word = word.
Proof. unfold form. now rewrite generate_inflections_eq. Qed.

Lemma form_1 (word : str) : form 1 word = plural_form word.
Proof. unfold form. now rewrite generate_inflections_eq. Qed.

Lemma fold_left_snoc_map {A B : Type} (f : A -> B) (l : list A) (acc : list B) :
  fold_left (fun out x => out ++ [f x]) l acc = acc ++ map f l.
Proof.
  revert acc. induction l as [|x l IH]; intros acc; simpl.
  - now rewrite app_nil_r.
  - rewrite IH. now rewrite <- app_assoc.
Qed.

Lemma heads_pairs {A B : Type} (f : A -> B) (g : A -> list B) (l : list A) :
  heads (map (fun x => f x :: g x) l) = Some (map f l).
Proof.
  induction l as [|x l IH]; simpl; [reflexivity|]. now rewrite IH.
Qed.

Lemma zip_rows_pairs {A B : Type} (f g : A -> B) (l : list A) :
  zip_rows 2 (map (fun x => [f x; g x]) l) = [map f l; map g l].
Proof.
  unfold zip_rows.
  rewrite (heads_pairs f (fun x => [g x])), map_map. simpl tl.
  rewrite (heads_pairs g (fun _ => [])). reflexivity.
Qed.

Lemma zip_star_inflections (words : list str) :
  words <> [] ->
  zip_star (map generate_inflections words) =
  [map (form 0) words; map (form 1) words].
Proof.
  intros Hne.
  assert (E : map generate_inflections words =
              map (fun w => [form 0 w; form 1 w]) words).
  { apply map_ext. intros w. rewrite form_0, form_1.
    apply generate_inflections_eq. }
  rewrite E. destruct words as [|w ws]; [contradiction|].
  change (zip_star (map (fun w => [form 0 w; form 1 w]) (w :: ws)))
    with (zip_rows 2 (map (fun w => [form 0 w; form 1 w]) (w :: ws))).
  apply zip_rows_pairs.
Qed.

Lemma length_escape_app (a b : str) :
  length (Re.escape (a ++ b)) =
  (length (Re.escape a) + length (Re.escape b))%nat.
Proof. unfold Re.escape. now rewrite flat_map_app, length_app. Qed.

Lemma last_char_split (word : str) (c : char) :
  last_char word = Some c -> word = removelast word ++ [c].
Proof.
  destruct word as [|a w] using rev_ind; [discriminate|].
  rewrite last_char_snoc. intros [= ->].
  now rewrite removelast_last.
Qed.

(** The pattern of a plural is longer than the pattern of its word. *)
Lemma length_escape_plural (word : str) :
  (length (Re.escape word) < length (Re.escape (plural_form word)))%nat.
Proof.
  unfold plural_form.
  destruct (last_char word) as [c|] eqn:Hl.
  2:{ rewrite length_escape_app. simpl. lia. }
  destruct (unaccented_vowel c).
  { rewrite length_escape_app. simpl. lia. }
  pose proof (last_char_split word c Hl) as Hw.
  destruct (accented_vowel c) eqn:Hacc.
  { rewrite Hw at 1. rewrite !length_escape_app.
    assert (length (Re.escape [c]) = 1%nat).
    { unfold accented_vowel in Hacc. simpl in Hacc.
      rewrite !orb_true_iff in Hacc.
      destruct Hacc as [H|[H|[H|[H|[H|H]]]]]; try discriminate;
        apply N.eqb_eq in H; subst c; reflexivity. }
    simpl (length (Re.escape (lit "es"))). lia. }
  destruct (c =? 122)%N eqn:Hz.
  { apply N.eqb_eq in Hz. subst c.
    rewrite Hw at 1. rewrite !length_escape_app. simpl. lia. }
  rewrite length_escape_app. simpl. lia.
Qed.

Lemma length_join (sep : str) (parts : list str) :
  length (join sep parts) =
  (total_length parts + (length parts - 1) * length sep)%nat.
Proof.
  induction parts as [|p rest IH]; [reflexivity|].
  destruct rest as [|q rest].
  - simpl. lia.
  - change (join sep (p :: q :: rest)) with (p ++ sep ++ join sep (q :: rest)).
    rewrite !length_app, IH. simpl. lia.
Qed.

Lemma length_combination (words : list str) (picks : list bool) :
  length picks = length words ->
  length (combination words picks) = length words.
Proof.
  revert picks. induction words as [|w ws IH]; intros [|b bs]; simpl;
    try discriminate; auto.
Qed.

Lemma total_length_combination (words : list str) (picks : list bool) :
  length picks = length words ->
  (total_length (map (fun w => Re.escape (form 0 w)) words)
   <= total_length (map Re.escape (combination words picks))
   <= total_length (map (fun w => Re.escape (form 1 w)) words))%nat /\
  (In true picks ->
   total_length (map (fun w => Re.escape (form 0 w)) words)
   < total_length (map Re.escape (combination words picks)))%nat /\
  (In false picks ->
   total_length (map Re.escape (combination words picks))
   < total_length (map (fun w => Re.escape (form 1 w)) words))%nat.
Proof.
  revert picks. induction words as [|w ws IH]; intros [|b bs] Hlen;
    try discriminate.
  - simpl. repeat split; try lia; intros [].
  - simpl in Hlen. injection Hlen as Hlen.
    destruct (IH bs Hlen) as ((Hlo & Hhi) & Ht & Hf).
    pose proof (length_escape_plural w) as Hp.
    simpl. rewrite form_0, form_1 in *.
    destruct b; rewrite ?form_0, ?form_1.
    + repeat split; try lia.
      intros [E | Hin]; [discriminate | specialize (Hf Hin); lia].
    + repeat split; try lia.
      intros [E | Hin]; [discriminate | specialize (Ht Hin); lia].
Qed.

(* ------------------------------------------------------------------ *)
(** *** AnnotationWriter *)

Lemma write_term_lines (term : str) (offsets : list span) (ind : Z)
    (written : list str) :
  write_term term offsets (ind, written) =
  (ind + Z.of_nat (length offsets),
   written ++ numbered_lines ind (map (fun sp => (term, sp)) offsets)).
Proof.
  unfold write_term. revert ind written.
  induction offsets as [|[start end_] rest IH]; intros ind written.
  - simpl. now rewrite Z.add_0_r, app_nil_r.
  - cbn [fold_left map numbered_lines length]. rewrite IH.
    f_equal; [lia | now rewrite <- app_assoc].
Qed.

Lemma numbered_lines_app (ind : Z) (ps qs : list (str * span)) :
  numbered_lines ind (ps ++ qs) =
  numbered_lines ind ps ++ numbered_lines (ind + Z.of_nat (length ps)) qs.
Proof.
  revert ind. induction ps as [|[term [start end_]] ps IH]; intros ind.
  - simpl. now rewrite Z.add_0_r.
  - cbn [app numbered_lines length]. rewrite IH.
    replace (ind + 1 + Z.of_nat (length ps))
      with (ind + Z.of_nat (S (length ps))) by lia.
    reflexivity.
Qed.

Lemma write_terms_lines (resultados : results_index)
    (items : results_index) (ind : Z) (written : list str) :
  dict_wf resultados -> incl items resultados ->
  fold_left
    (fun st term =>
       match dict_get term resultados with
       | Some offsets => write_term term offsets st
       | None => st
       end)
    (keys items) (ind, written) =
  (ind + Z.of_nat (length (key_span_pairs items)),
   written ++ numbered_lines ind (key_span_pairs items)).
Proof.
  intros Hwf. revert ind written.
  induction items as [|[term offsets] rest IH]; intros ind written Hincl.
  - simpl. now rewrite Z.add_0_r, app_nil_r.
  - cbn [keys map fst fold_left].
    rewrite (In_dict_get term offsets resultados Hwf)
      by (apply Hincl; now left).
    rewrite write_term_lines.
    change (map fst rest) with (keys rest).
    rewrite IH by (intros x Hx; apply Hincl; now right).
    unfold key_span_pairs. cbn [flat_map fst snd].
    rewrite length_app, length_map, numbered_lines_app, length_map.
    f_equal; [lia | now rewrite <- app_assoc].
Qed.

Lemma write_annotations_lines (resultados : results_index) :
  dict_wf resultados ->
  write_annotations resultados =
  numbered_lines 1 (key_span_pairs resultados).
Proof.
  intros Hwf. unfold write_annotations.
  rewrite (write_terms_lines resultados resultados 1 [] Hwf (incl_refl _)).
  reflexivity.
Qed.

Lemma length_numbered_lines (ind : Z) (ps : list (str * span)) :
  length (numbered_lines ind ps) = length ps.
Proof.
  revert ind. induction ps as [|[term [start end_]] ps IH]; intros ind;
    simpl; auto.
Qed.

Lemma nth_error_numbered_lines (ind : Z) (ps : list (str * span)) (i : nat)
    (term : str) (start end_ : Z) :
  nth_error ps i = Some (term, (start, end_)) ->
  nth_error (numbered_lines ind ps) i =
  Some (formated_data (ind + Z.of_nat i) term start end_).
Proof.
  revert ind i. induction ps as [|[t [s e]] ps IH]; intros ind [|i] H;
    try discriminate.
  - simpl in H. injection H as -> -> ->. simpl. now rewrite Z.add_0_r.
  - simpl in H. cbn [numbered_lines nth_error]. rewrite (IH _ _ H).
    do 2 f_equal. lia.
Qed.

(** What [strip] removes is white space, and what it leaves neither
    starts nor ends with white space. *)
Lemma lstrip_spec (s : str) :
  exists l, s = l ++ lstrip s /\ forallb isspace l = true /\
            match lstrip s with [] => True | c :: _ => isspace c = false end.
Proof.
  induction s as [|c s (l & E & Hl & Hc)]; simpl.
  - exists []. auto.
  - destruct (isspace c) eqn:Hsp.
    + exists (c :: l). simpl. rewrite Hsp, Hl. split; [congruence | auto].
    + exists []. simpl. auto.
Qed.

Lemma lstrip_keeps_last (s : str) (c : char) :
  isspace c = false -> lstrip (s ++ [c]) = lstrip s ++ [c].
Proof.
  intros Hc. induction s as [|x s IH]; simpl.
  - now rewrite Hc.
  - destruct (isspace x); auto.
Qed.

Lemma first_char_prefix (P : char -> Prop) (u m r : str) :
  u = m ++ r ->
  match u with [] => True | c :: _ => P c end ->
  match m with [] => True | c :: _ => P c end.
Proof. intros -> H. destruct m; [exact I | exact H]. Qed.

Lemma strip_spec (s : str) :
  exists l r,
    s = l ++ strip s ++ r /\
    forallb isspace l = true /\ forallb isspace r = true /\
    match strip s with [] => True | c :: _ => isspace c = false end /\
    match last_char (strip s) with
    | Some c => isspace c = false
    | None => True
    end.
Proof.
  unfold strip.
  destruct (lstrip_spec s) as (l & El & Hl & Hfirst).
  destruct (lstrip_spec (rev (lstrip s))) as (r & Er & Hr & Hlast).
  exists l, (rev r). 
  assert (Emid : lstrip s = rev (lstrip (rev (lstrip s))) ++ rev r).
  { rewrite <- rev_app_distr, <- Er. now rewrite rev_involutive. }
  split; [now rewrite <- Emid|].
  split; [assumption|]. split.
  { rewrite forallb_forall in *. intros x Hx. apply Hr.
    now apply in_rev. }
  split.
  - apply (first_char_prefix _ _ _ _ Emid Hfirst).
  - unfold last_char. rewrite rev_involutive.
    destruct (lstrip (rev (lstrip s))); exact Hlast.
Qed.

(** C6. The writer emits one line for each pair of a key and one of its
    spans, keys in the order of the index and spans in the order of
    their list; the line of rank [i] (from 0) is
    "T<i+1>", tab, "concept", space, start, space, end, tab, the key
    without its surrounding white space, newline. *)
Theorem writer_lines (resultados : results_index) :
  dict_wf resultados ->
  length (write_annotations resultados) =
    length (key_span_pairs resultados) /\
  (forall i term start end_,
      nth_error (key_span_pairs resultados) i = Some (term, (start, end_)) ->
      nth_error (write_annotations resultados) i =
      Some (lit "T" ++ str_of_int (Z.of_nat i + 1) ++ [tab] ++
            lit "concept" ++ lit " " ++ str_of_int start ++ lit " " ++
            str_of_int end_ ++ [tab] ++ strip term ++ [newline])) /\
  (forall term,
      exists l r,
        term = l ++ strip term ++ r /\
        forallb isspace l = true /\ forallb isspace r = true /\
        match strip term with [] => True | c :: _ => isspace c = false end /\
        match last_char (strip term) with
        | Some c => isspace c = false
        | None => True
        end) /\
  str_of_int 1 = lit "1" /\ str_of_int 12 = lit "12" /\
  str_of_int 305 = lit "305".
Proof.
  intros Hwf. rewrite write_annotations_lines by assumption.
  split; [apply length_numbered_lines|].
  split; [|split; [exact strip_spec | repeat split; reflexivity]].
  intros i term start end_ H.
  rewrite (nth_error_numbered_lines 1 _ i term start end_ H).
  replace (1 + Z.of_nat i) with (Z.of_nat i + 1) by lia. reflexivity.
Qed.

Lemma writer_lines_witness :
  length (write_annotations two_terms) = length (key_span_pairs two_terms) /\
  (forall i term start end_,
      nth_error (key_span_pairs two_terms) i = Some (term, (start, end_)) ->
      nth_error (write_annotations two_terms) i =
      Some (lit "T" ++ str_of_int (Z.of_nat i + 1) ++ [tab] ++
            lit "concept" ++ lit " " ++ str_of_int start ++ lit " " ++
            str_of_int end_ ++ [tab] ++ strip term ++ [newline])) /\
  (forall term,
      exists l r,
        term = l ++ strip term ++ r /\
        forallb isspace l = true /\ forallb isspace r = true /\
        match strip term with [] => True | c :: _ => isspace c = false end /\
        match last_char (strip term) with
        | Some c => isspace c = false
        | None => True
        end) /\
  str_of_int 1 = lit "1" /\ str_of_int 12 = lit "12" /\
  str_of_int 305 = lit "305".
Proof. apply (writer_lines two_terms). solve_wf. Defined.

(* ------------------------------------------------------------------ *)
(** *** The pattern of TermMatcher *)

Lemma literal_pattern_nil : literal_pattern [] [].
Proof.
  split; intros; simpl; [now rewrite app_nil_r | reflexivity].
Qed.

Lemma literal_pattern_app (p1 r1 p2 r2 : str) :
  literal_pattern p1 r1 -> literal_pattern p2 r2 ->
  literal_pattern (p1 ++ p2) (r1 ++ r2).
Proof.
  intros [H1 U1] [H2 U2]. split; intros.
  - now rewrite <- app_assoc, H1, H2, app_assoc.
  - now rewrite <- !app_assoc, U1, U2.
Qed.

Lemma special_not_alnum (c : char) :
  Re.is_special c = true -> Re.is_ascii_alnum c = false.
Proof.
  unfold Re.is_special. intros H.
  apply existsb_exists in H as [x [Hin Hx]].
  apply N.eqb_eq in Hx. subst x. simpl in Hin.
  repeat (destruct Hin as [<- | Hin]; [reflexivity|]). destruct Hin.
Qed.

Lemma not_special_plain (c : char) :
  Re.is_special c = false ->
  (c =? Re.backslash)%N = false /\ (c =? 124)%N = false /\
  (c =? 41)%N = false /\ Re.is_meta c = false.
Proof.
  intros H.
  assert (Hin : forall x, In x Re.special_chars -> (c =? x)%N = false).
  { intros x Hx. destruct (c =? x)%N eqn:E; [|reflexivity].
    rewrite <- H. symmetry. apply existsb_exists. now exists x. }
  repeat split; try (apply Hin; simpl; tauto).
  unfold Re.is_meta. simpl.
  rewrite !Hin by (simpl; tauto). reflexivity.
Qed.

Lemma literal_pattern_char (c : char) :
  literal_pattern (if Re.is_special c then [Re.backslash; c] else [c]) [c].
Proof.
  destruct (Re.is_special c) eqn:Hs.
  - pose proof (special_not_alnum c Hs) as Ha. split; intros.
    + cbn [app Re.parse_group]. rewrite N.eqb_refl, Ha. reflexivity.
    + cbn [app unescape]. now rewrite N.eqb_refl.
  - destruct (not_special_plain c Hs) as (Hb & Hbar & Hpar & Hm).
    split; intros.
    + cbn [app Re.parse_group]. now rewrite Hb, Hbar, Hpar, Hm.
    + cbn [app unescape]. now rewrite Hb.
Qed.

Lemma literal_pattern_escape (w : str) : literal_pattern (Re.escape w) w.
Proof.
  induction w as [|c w IH]; [apply literal_pattern_nil|].
  change (Re.escape (c :: w))
    with ((if Re.is_special c then [Re.backslash; c] else [c]) ++ Re.escape w).
  change (c :: w) with ([c] ++ w).
  apply literal_pattern_app; [apply literal_pattern_char | exact IH].
Qed.

Lemma literal_pattern_space : literal_pattern (lit " ") (lit " ").
Proof. split; intros; reflexivity. Qed.

Lemma literal_pattern_join (ws : list str) :
  literal_pattern (join (lit " ") (map Re.escape ws)) (join (lit " ") ws).
Proof.
  induction ws as [|w ws IH]; [apply literal_pattern_nil|].
  destruct ws as [|w' ws].
  - apply literal_pattern_escape.
  - change (join (lit " ") (map Re.escape (w :: w' :: ws)))
      with (Re.escape w ++ lit " " ++ join (lit " ") (map Re.escape (w' :: ws))).
    change (join (lit " ") (w :: w' :: ws))
      with (w ++ lit " " ++ join (lit " ") (w' :: ws)).
    apply literal_pattern_app; [apply literal_pattern_escape|].
    apply literal_pattern_app; [apply literal_pattern_space | exact IH].
Qed.

Lemma literal_pattern_unescape (p raw : str) :
  literal_pattern p raw -> unescape p = raw.
Proof.
  intros [_ U]. specialize (U []). now rewrite !app_nil_r in U.
Qed.

(** The three shapes of the patterns of an expression. *)
Lemma build_inflected_patterns_cases (expression : str) :
  (split expression = [] /\ build_inflected_patterns expression = []) \/
  (length (split expression) = 1%nat /\
   build_inflected_patterns expression =
     [Re.escape expression; Re.escape (plural_form expression)]) \/
  ((2 <= length (split expression))%nat /\
   build_inflected_patterns expression =
     [positional_pattern 0 (split expression);
      positional_pattern 1 (split expression)]).
Proof.
  unfold build_inflected_patterns.
  destruct (split expression) as [|w [|w' ws]] eqn:E.
  - left. split; reflexivity.
  - right; left. split; [reflexivity|].
    simpl. now rewrite generate_inflections_eq.
  - right; right. split; [simpl; lia|].
    cbn [length Nat.eqb].
    rewrite fold_left_snoc_map, zip_star_inflections by discriminate.
    unfold positional_pattern. simpl. now rewrite !map_map.
Qed.

Lemma positional_pattern_literal (i : nat) (words : list str) :
  literal_pattern (positional_pattern i words)
    (join (lit " ") (map (form i) words)).
Proof.
  unfold positional_pattern. rewrite <- (map_map (form i) Re.escape).
  apply literal_pattern_join.
Qed.

Lemma build_inflected_patterns_literal (expression : str) :
  Forall (fun p => literal_pattern p (unescape p))
    (build_inflected_patterns expression).
Proof.
  assert (H : forall p raw, literal_pattern p raw ->
                            literal_pattern p (unescape p)).
  { intros p raw Hp. now rewrite (literal_pattern_unescape p raw Hp). }
  destruct (build_inflected_patterns_cases expression)
    as [[_ ->] | [[_ ->] | [_ ->]]].
  - constructor.
  - repeat constructor; eapply H; apply literal_pattern_escape.
  - repeat constructor; eapply H; apply positional_pattern_literal.
Qed.

Lemma parse_group_alternation (ps : list str) (rest : str) :
  Forall (fun p => literal_pattern p (unescape p)) ps -> ps <> [] ->
  forall alts,
    Re.parse_group (join (lit "|") ps ++ 41%N :: rest) [] alts =
    Some (alts ++ map unescape ps, rest).
Proof.
  induction ps as [|p ps IH]; intros Hall Hne alts; [contradiction|].
  inversion Hall as [|? ? [Hp _] Hps]; subst.
  destruct ps as [|q ps].
  - cbn [join map]. rewrite Hp. reflexivity.
  - change (join (lit "|") (p :: q :: ps))
      with (p ++ lit "|" ++ join (lit "|") (q :: ps)).
    rewrite <- !app_assoc, Hp.
    change (Re.parse_group
              (lit "|" ++ join (lit "|") (q :: ps) ++ 41%N :: rest)
              ([] ++ unescape p) alts)
      with (Re.parse_group (join (lit "|") (q :: ps) ++ 41%N :: rest)
              [] (alts ++ [unescape p])).
    rewrite IH by (assumption || discriminate).
    now rewrite <- app_assoc.
Qed.

Lemma compile_alternation (ps : list str) :
  Forall (fun p => literal_pattern p (unescape p)) ps ->
  Re.compile (punctuation_aware_pattern ps) =
  between_boundaries (literal_alternatives ps).
Proof.
  intros Hall. unfold Re.compile, punctuation_aware_pattern.
  change (Re.strip_prefix (lit "\b(?:")
            (lit "\b(?:" ++ join (lit "|") ps ++ lit ")\b"))
    with (Some (join (lit "|") ps ++ 41%N :: lit "\b")).
  destruct ps as [|p ps]; [reflexivity|].
  rewrite parse_group_alternation by (assumption || discriminate).
  reflexivity.
Qed.

Lemma compile_patterns (expression : str) :
  Re.compile (punctuation_aware_pattern (build_inflected_patterns expression))
  = between_boundaries
      (literal_alternatives (build_inflected_patterns expression)).
Proof. apply compile_alternation, build_inflected_patterns_literal. Qed.

(** C2. An expression of at least two words gives exactly two patterns:
    the escaped forms of index 0 of all its words, joined by spaces, and
    the escaped forms of index 1.  No mixed combination of singulars and
    plurals is among them, and each pattern is read as the literal text
    of its words; "mesa redonda" gives "mesa redonda" and
    "mesas redondas", not "mesa redondas". *)
Theorem multiword_patterns_positional (expression : str) :
  (2 <= length (split expression))%nat ->
  build_inflected_patterns expression =
    [positional_pattern 0 (split expression);
     positional_pattern 1 (split expression)] /\
  length (build_inflected_patterns expression) = 2%nat /\
  (forall picks,
      mixed (split expression) picks ->
      ~ In (join (lit " ")
              (map Re.escape (combination (split expression) picks)))
           (build_inflected_patterns expression)) /\
  (forall i,
      literal_pattern (positional_pattern i (split expression))
        (join (lit " ") (map (form i) (split expression)))) /\
  build_inflected_patterns (lit "mesa redonda") =
    [lit "mesa redonda"; lit "mesas redondas"] /\
  ~ In (lit "mesa redondas") (build_inflected_patterns (lit "mesa redonda")).
Proof.
  intros Hn.
  assert (Hpat : build_inflected_patterns expression =
                 [positional_pattern 0 (split expression);
                  positional_pattern 1 (split expression)]).
  { unfold build_inflected_patterns, positional_pattern.
    destruct (length (split expression) =? 1)%nat eqn:E.
    { apply Nat.eqb_eq in E. lia. }
    rewrite fold_left_snoc_map, zip_star_inflections.
    - simpl. now rewrite !map_map.
    - intros E0. rewrite E0 in Hn. simpl in Hn. lia. }
  split; [exact Hpat|]. split; [now rewrite Hpat|].
  split; [|split; [intros i; apply positional_pattern_literal|
             split; [reflexivity|]]].
  - intros picks (Hlen & Ht & Hf). rewrite Hpat.
    destruct (total_length_combination (split expression) picks Hlen)
      as (_ & Hlt & Hgt).
    specialize (Hlt Ht). specialize (Hgt Hf).
    intros Hin.
    assert (Hl : forall i,
               join (lit " ")
                 (map Re.escape (combination (split expression) picks)) =
               positional_pattern i (split expression) ->
               total_length
                 (map Re.escape (combination (split expression) picks)) =
               total_length
                 (map (fun w => Re.escape (form i w)) (split expression))).
    { intros i E. apply (f_equal (@length char)) in E.
      unfold positional_pattern in E.
      rewrite !length_join, !length_map in E.
      rewrite length_combination in E by assumption. lia. }
    destruct Hin as [E | [E | []]]; symmetry in E; apply Hl in E; lia.
  - vm_compute. intros [E | [E | []]]; discriminate.
Qed.

Lemma multiword_patterns_positional_witness :
  build_inflected_patterns (lit "el juez") =
    [positional_pattern 0 (split (lit "el juez"));
     positional_pattern 1 (split (lit "el juez"))] /\
  length (build_inflected_patterns (lit "el juez")) = 2%nat /\
  (forall picks,
      mixed (split (lit "el juez")) picks ->
      ~ In (join (lit " ")
              (map Re.escape (combination (split (lit "el juez")) picks)))
           (build_inflected_patterns (lit "el juez"))) /\
  (forall i,
      literal_pattern (positional_pattern i (split (lit "el juez")))
        (join (lit " ") (map (form i) (split (lit "el juez"))))) /\
  build_inflected_patterns (lit "mesa redonda") =
    [lit "mesa redonda"; lit "mesas redondas"] /\
  ~ In (lit "mesa redondas") (build_inflected_patterns (lit "mesa redonda")).
Proof.
  apply (multiword_patterns_positional (lit "el juez")).
  vm_compute. apply le_n.
Defined.

(* ------------------------------------------------------------------ *)
(** *** The matcher on the pattern of TermMatcher *)

Section EngineFacts.
Variable T : Re.tables.
Variable text : str.
Local Open Scope nat_scope.

Lemma re_match_literals (s : str) (k : nat -> option nat) (pos : nat) :
  Re.re_match T text (Re.literals s) k pos =
  if literal_at T text s pos then k (pos + length s) else None.
Proof.
  revert pos. induction s as [|c s IH]; intros pos; simpl.
  - now rewrite Nat.add_0_r.
  - destruct (nth_error text pos) as [t|]; [|reflexivity].
    destruct (Re.ci_match T c t); simpl; [|reflexivity].
    rewrite IH. now rewrite Nat.add_succ_r.
Qed.

Lemma re_match_branch (a : str) (alts : list str) (k : nat -> option nat)
    (pos : nat) :
  Re.re_match T text (Re.branch (Re.literals a) (map Re.literals alts)) k pos =
  first_some
    (fun alt => if literal_at T text alt pos then k (pos + length alt) else None)
    (a :: alts).
Proof.
  revert a. induction alts as [|b alts IH]; intros a.
  - cbn [map Re.branch first_some]. rewrite re_match_literals.
    now destruct (if literal_at T text a pos then _ else _).
  - cbn [map Re.branch Re.re_match]. rewrite re_match_literals, IH.
    reflexivity.
Qed.

Lemma match_at_bounded (a : str) (alts : list str) (pos : nat) (adv : bool) :
  Re.match_at T text (Re.bounded a alts) pos adv =
  if Re.at_boundary T text pos then
    first_some
      (fun alt =>
         if alternative_at T text pos alt then
           if adv && (pos + length alt =? pos) then None
           else Some (pos + length alt)
         else None)
      (a :: alts)
  else None.
Proof.
  unfold Re.match_at, Re.bounded. cbn [Re.re_match].
  destruct (Re.at_boundary T text pos); [|reflexivity].
  rewrite re_match_branch.
  generalize (a :: alts) as l. intros l.
  induction l as [|x l IH]; [reflexivity|].
  cbn [first_some Re.re_match]. unfold alternative_at at 1.
  destruct (literal_at T text x pos); simpl; [|exact IH].
  destruct (Re.at_boundary T text (pos + length x)); [|exact IH].
  destruct (adv && (pos + length x =? pos)); [exact IH | reflexivity].
Qed.

Lemma match_at_first_alternative (a : str) (alts : list str) (pos : nat) :
  Re.match_at T text (Re.bounded a alts) pos false =
  first_alternative T text (a :: alts) pos.
Proof.
  rewrite match_at_bounded. unfold first_alternative.
  destruct (Re.at_boundary T text pos); [|reflexivity].
  generalize (a :: alts) as l. intros l.
  induction l as [|x l IH]; [reflexivity|].
  cbn [first_some find]. 
  destruct (alternative_at T text pos x); simpl; [reflexivity | exact IH].
Qed.

Lemma literal_at_fits (alt : str) (pos : nat) :
  alt <> [] -> literal_at T text alt pos = true ->
  pos + length alt <= length text.
Proof.
  revert pos. induction alt as [|c alt IH]; intros pos Hne; [contradiction|].
  simpl. destruct (nth_error text pos) as [t|] eqn:Ht; [|discriminate].
  intros H. apply andb_true_iff in H as [_ H].
  assert (pos < length text) by (apply nth_error_Some; congruence).
  destruct alt as [|c' alt].
  - simpl. lia.
  - specialize (IH (S pos)). simpl in *. 
    assert (S pos + S (length alt) <= length text)
      by (apply IH; [discriminate | assumption]).
    lia.
Qed.

Lemma first_alternative_spec (alts : list str) (pos e : nat) :
  first_alternative T text alts pos = Some e ->
  Re.at_boundary T text pos = true /\ Re.at_boundary T text e = true /\
  exists alt, In alt alts /\ e = pos + length alt /\
              literal_at T text alt pos = true.
Proof.
  unfold first_alternative.
  destruct (Re.at_boundary T text pos) eqn:Hb; [|discriminate].
  destruct (find (alternative_at T text pos) alts) as [alt|] eqn:Hf;
    [|discriminate].
  intros [= <-]. apply find_some in Hf as [Hin Halt].
  unfold alternative_at in Halt. apply andb_true_iff in Halt as [Hl Hb'].
  split; [reflexivity|]. split; [assumption|]. now exists alt.
Qed.

(** A word boundary lies inside the text or at one of its ends. *)
Lemma at_boundary_le (pos : nat) :
  Re.at_boundary T text pos = true -> pos <= length text.
Proof.
  unfold Re.at_boundary. intros H.
  destruct (le_gt_dec pos (length text)) as [Hle | Hgt]; [assumption|].
  exfalso.
  assert (E1 : nth_error text pos = None) by (apply nth_error_None; lia).
  rewrite E1 in H. destruct pos as [|p]; [discriminate|].
  assert (E2 : nth_error text p = None) by (apply nth_error_None; lia).
  rewrite E2 in H. discriminate.
Qed.

Lemma first_alternative_bounds (alts : list str) (pos e : nat) :
  first_alternative T text alts pos = Some e -> pos <= e <= length text.
Proof.
  intros H. apply first_alternative_spec in H as (_ & Hb & alt & _ & -> & _).
  apply at_boundary_le in Hb. lia.
Qed.

Lemma match_at_must_advance (a : str) (alts : list str) (pos : nat) :
  uniform (a :: alts) ->
  first_alternative T text (a :: alts) pos = Some pos ->
  Re.match_at T text (Re.bounded a alts) pos true = None.
Proof.
  intros [Hne | Hemp] HF.
  - exfalso. apply first_alternative_spec in HF as (_ & _ & alt & Hin & E & _).
    rewrite Forall_forall in Hne. specialize (Hne alt Hin).
    destruct alt; [contradiction | simpl in E; lia].
  - rewrite match_at_bounded.
    destruct (Re.at_boundary T text pos); [|reflexivity].
    revert Hemp. generalize (a :: alts) as l. intros l Hemp.
    induction l as [|x l IH]; [reflexivity|].
    inversion Hemp as [|? ? Hx Hl]; subst. cbn [first_some].
    simpl length. rewrite Nat.add_0_r, Nat.eqb_refl. simpl.
    destruct (alternative_at T text pos []); now apply IH.
Qed.

(** Where the scan resumes does not matter once it is passed. *)
Lemma scan_resume_le (alts : list str) (n pos resume : nat) :
  resume <= pos -> scan T text alts n pos resume = scan T text alts n pos 0.
Proof.
  revert pos resume. induction n as [|n IH]; intros pos resume Hle.
  - simpl. 
    replace (pos <? resume) with false by (symmetry; apply Nat.ltb_ge; lia).
    reflexivity.
  - cbn [scan].
    replace (pos <? resume) with false by (symmetry; apply Nat.ltb_ge; lia).
    replace (pos <? 0) with false by (symmetry; apply Nat.ltb_ge; lia).
    destruct (first_alternative T text alts pos); [reflexivity|].
    apply IH. lia.
Qed.

(** The positions inside a match are passed over. *)
Lemma scan_skip (alts : list str) (d m pos e : nat) :
  e = pos + d -> d <= m ->
  scan T text alts m pos e = scan T text alts (m - d) e e.
Proof.
  revert m pos. induction d as [|d IH]; intros m pos He Hd.
  - rewrite Nat.add_0_r in He. subst e. now rewrite Nat.sub_0_r.
  - destruct m as [|m]; [lia|]. cbn [scan].
    replace (pos <? e) with true by (symmetry; apply Nat.ltb_lt; lia).
    rewrite (IH m (S pos)) by lia. reflexivity.
Qed.

Lemma search_scan (a : str) (alts : list str) (n pos : nat) :
  match Re.search T text (Re.bounded a alts) n pos false with
  | None => scan T text (a :: alts) n pos pos = []
  | Some (s, e) =>
      pos <= s /\ s <= pos + n /\
      first_alternative T text (a :: alts) s = Some e /\
      scan T text (a :: alts) n pos pos =
      (s, e) :: match pos + n - s with
                | O => []
                | S m => scan T text (a :: alts) m (S s) e
                end
  end.
Proof.
  revert pos. induction n as [|n IH]; intros pos.
  - cbn [Re.search scan]. rewrite match_at_first_alternative, Nat.ltb_irrefl.
    destruct (first_alternative T text (a :: alts) pos) as [e|] eqn:HF;
      [|reflexivity].
    repeat split; try lia; [assumption|].
    replace (pos + 0 - pos) with 0 by lia. reflexivity.
  - cbn [Re.search scan]. rewrite match_at_first_alternative, Nat.ltb_irrefl.
    destruct (first_alternative T text (a :: alts) pos) as [e|] eqn:HF.
    + repeat split; try lia; [assumption|].
      replace (pos + S n - pos) with (S n) by lia. reflexivity.
    + specialize (IH (S pos)).
      rewrite (scan_resume_le _ n (S pos) pos) by lia.
      rewrite (scan_resume_le _ n (S pos) (S pos)) in IH by lia.
      destruct (Re.search T text (Re.bounded a alts) n (S pos) false)
        as [[s e]|]; [|exact IH].
      destruct IH as (H1 & H2 & H3 & H4).
      repeat split; try lia; [assumption|].
      rewrite H4. replace (S pos + n - s) with (pos + S n - s) by lia.
      reflexivity.
Qed.

(** The scanner of [finditer] makes the scan of the specification;
    [k] bounds the searches still to come. *)
Lemma finditer_loop_scan (a : str) (alts : list str) :
  uniform (a :: alts) ->
  forall (k fuel start : nat) (adv : bool),
    start <= length text ->
    2 * (length text - start) + (if adv then 0 else 1) <= k ->
    k < fuel ->
    (adv = true -> first_alternative T text (a :: alts) start = Some start) ->
    Re.finditer_loop T text fuel (Re.bounded a alts) start adv =
    if adv then
      match length text - start with
      | O => []
      | S m => scan T text (a :: alts) m (S start) (S start)
      end
    else scan T text (a :: alts) (length text - start) start start.
Proof.
  intros Hu. induction k as [|k IH]; intros fuel start adv Hstart Hk Hfuel Hadv.
  - destruct adv; [|lia].
    destruct fuel as [|fuel]; [lia|].
    replace (length text - start) with 0 by lia.
    cbn [Re.finditer_loop Re.search].
    replace (length text - start) with 0 by lia.
    cbn [Re.search].
    now rewrite (match_at_must_advance a alts start Hu (Hadv eq_refl)).
  - destruct fuel as [|fuel]; [lia|].
    (* what follows a match [(s, e)] *)
    assert (Htail : forall s e,
               first_alternative T text (a :: alts) s = Some e ->
               2 * (length text - s) <= k ->
               Re.finditer_loop T text fuel (Re.bounded a alts) e (e =? s) =
               match length text - s with
               | O => []
               | S m => scan T text (a :: alts) m (S s) e
               end).
    { intros s e HF Hs.
      pose proof (first_alternative_bounds _ _ _ HF) as [Hse Hel].
      destruct (e =? s) eqn:E.
      - apply Nat.eqb_eq in E. subst e.
        rewrite (IH fuel s true) by (auto; lia).
        destruct (length text - s) as [|m]; [reflexivity|].
        rewrite (scan_resume_le _ m (S s) s) by lia.
        now rewrite (scan_resume_le _ m (S s) (S s)) by lia.
      - apply Nat.eqb_neq in E.
        rewrite (IH fuel e false) by (try lia; discriminate).
        destruct (length text - s) as [|m] eqn:Em; [lia|].
        rewrite (scan_skip _ (e - S s) m (S s) e) by lia.
        replace (m - (e - S s)) with (length text - e) by lia.
        reflexivity. }
    destruct adv.
    + cbn [Re.finditer_loop Re.search].
      destruct (length text - start) as [|m] eqn:Em.
      * cbn [Re.search].
        now rewrite (match_at_must_advance a alts start Hu (Hadv eq_refl)).
      * cbn [Re.search].
        rewrite (match_at_must_advance a alts start Hu (Hadv eq_refl)).
        pose proof (search_scan a alts m (S start)) as Hs.
        destruct (Re.search T text (Re.bounded a alts) m (S start) false)
          as [[s e]|]; [|now rewrite Hs].
        destruct Hs as (H1 & H2 & H3 & H4).
        rewrite H4, (Htail s e H3) by lia.
        replace (S start + m - s) with (length text - s) by lia.
        reflexivity.
    + cbn [Re.finditer_loop].
      pose proof (search_scan a alts (length text - start) start) as Hs.
      destruct (Re.search T text (Re.bounded a alts)
                  (length text - start) start false) as [[s e]|];
        [|now rewrite Hs].
      destruct Hs as (H1 & H2 & H3 & H4).
      rewrite H4, (Htail s e H3) by lia.
      replace (start + (length text - start) - s) with (length text - s)
        by lia.
      reflexivity.
Qed.

(** The fuel of [finditer] is enough, and more fuel changes nothing. *)
Lemma finditer_loop_fuel (a : str) (alts : list str) (fuel : nat) :
  uniform (a :: alts) ->
  Re.finditer_fuel text <= fuel ->
  Re.finditer_loop T text fuel (Re.bounded a alts) 0 false =
  scan T text (a :: alts) (length text) 0 0.
Proof.
  intros Hu Hfuel. unfold Re.finditer_fuel in Hfuel.
  rewrite (finditer_loop_scan a alts Hu (2 * length text + 1) fuel 0 false)
    by (try lia; discriminate).
  now rewrite Nat.sub_0_r.
Qed.

End EngineFacts.

(* ------------------------------------------------------------------ *)
(** *** TermMatcher *)

Lemma plural_form_nonempty (word : str) : plural_form word <> [].
Proof.
  pose proof (length_escape_plural word) as H.
  intros E. rewrite E in H. simpl in H. lia.
Qed.

Lemma literal_alternatives_patterns (expression : str) :
  (split expression = [] /\
   literal_alternatives (build_inflected_patterns expression) = [[]]) \/
  (length (split expression) = 1%nat /\
   literal_alternatives (build_inflected_patterns expression) =
     [expression; plural_form expression]) \/
  ((2 <= length (split expression))%nat /\
   literal_alternatives (build_inflected_patterns expression) =
     [join (lit " ") (map (form 0) (split expression));
      join (lit " ") (map (form 1) (split expression))]).
Proof.
  destruct (build_inflected_patterns_cases expression)
    as [[H ->] | [[H ->] | [H ->]]].
  - left. split; [assumption | reflexivity].
  - right; left. split; [assumption|]. unfold literal_alternatives. simpl.
    now rewrite !(literal_pattern_unescape _ _ (literal_pattern_escape _)).
  - right; right. split; [assumption|]. unfold literal_alternatives. simpl.
    now rewrite !(literal_pattern_unescape _ _ (positional_pattern_literal _ _)).
Qed.

(** An expression with a word has no empty alternative. *)
Lemma literal_alternatives_words (expression : str) :
  split expression <> [] ->
  Forall (fun alt => alt <> [])
    (literal_alternatives (build_inflected_patterns expression)).
Proof.
  intros Hw.
  destruct (literal_alternatives_patterns expression)
    as [[H _] | [[H ->] | [H ->]]]; [contradiction | |].
  - repeat constructor.
    + intros E. subst expression. discriminate H.
    + apply plural_form_nonempty.
  - assert (Hj : forall i,
               join (lit " ") (map (form i) (split expression)) <> []).
    { intros i E. apply (f_equal (@length char)) in E.
      rewrite length_join, length_map in E. simpl in E. lia. }
    repeat constructor; apply Hj.
Qed.

Lemma literal_alternatives_uniform (expression : str) :
  uniform (literal_alternatives (build_inflected_patterns expression)).
Proof.
  destruct (split expression) as [|w ws] eqn:E.
  - right.
    destruct (literal_alternatives_patterns expression)
      as [[_ ->] | [[H _] | [H _]]].
    + repeat constructor.
    + rewrite E in H. discriminate H.
    + rewrite E in H. simpl in H. lia.
  - left. apply literal_alternatives_words. rewrite E. discriminate.
Qed.

Lemma literal_alternatives_nonempty (ps : list str) :
  literal_alternatives ps <> [].
Proof. destruct ps; discriminate. Qed.

Lemma collect_matches (text : str) (spans : list (nat * nat))
    (acc : list found) :
  fold_left
    (fun matches m =>
       let '(start, end_) := m in
       let matched_text := slice text start end_ in
       matches ++ [((Z.of_nat start, Z.of_nat end_), matched_text)])
    spans acc =
  acc ++ map (found_at text) spans.
Proof.
  revert acc. induction spans as [|[s e] spans IH]; intros acc; simpl.
  - now rewrite app_nil_r.
  - rewrite IH. now rewrite <- app_assoc.
Qed.

(** [find_offsets_and_forms] raises no error and returns the scan of the
    text for the texts of the patterns. *)
Lemma find_offsets_and_forms_scan (T : Re.tables) (text expression : str) :
  find_offsets_and_forms T text expression =
  Some (term_matches T text expression).
Proof.
  unfold find_offsets_and_forms, Re.finditer, term_matches, scan_text.
  rewrite compile_patterns.
  pose proof (literal_alternatives_uniform expression) as Hu.
  destruct (literal_alternatives (build_inflected_patterns expression))
    as [|a alts] eqn:E.
  { exfalso. now apply (literal_alternatives_nonempty _ E). }
  cbn [between_boundaries].
  rewrite (finditer_loop_fuel T text a alts _ Hu (le_n _)).
  now rewrite collect_matches.
Qed.

Lemma skipn_nth_error_cons {A : Type} (l : list A) (pos : nat) (t : A) :
  nth_error l pos = Some t -> skipn pos l = t :: skipn (S pos) l.
Proof.
  revert l. induction pos as [|pos IH]; intros [|x l] H; try discriminate.
  - simpl in H. now injection H as ->.
  - simpl in H. apply IH in H. exact H.
Qed.

Section ScanFacts.
Variable T : Re.tables.
Variable text : str.
Local Open Scope nat_scope.

Lemma scan_In (alts : list str) (n pos resume s e : nat) :
  In (s, e) (scan T text alts n pos resume) ->
  pos <= s /\ resume <= s /\ first_alternative T text alts s = Some e.
Proof.
  revert pos resume. induction n as [|n IH]; intros pos resume; cbn [scan].
  - destruct (pos <? resume) eqn:Hlt.
    + intros [].
    + apply Nat.ltb_ge in Hlt.
      destruct (first_alternative T text alts pos) as [e'|] eqn:HF;
        [|intros []].
      intros [[= <- <-] | []]. auto.
  - destruct (pos <? resume) eqn:Hlt.
    + apply Nat.ltb_lt in Hlt. intros H. apply IH in H. 
      destruct H as (H1 & H2 & H3). repeat split; auto; lia.
    + apply Nat.ltb_ge in Hlt.
      destruct (first_alternative T text alts pos) as [e'|] eqn:HF.
      * intros [[= <- <-] | H]; [auto|].
        apply IH in H. destruct H as (H1 & H2 & H3).
        repeat split; auto; lia.
      * intros H. apply IH in H. destruct H as (H1 & H2 & H3).
        repeat split; auto; lia.
Qed.

(** The matches come in the order of the text and do not overlap. *)
Lemma scan_sorted (alts : list str) (n pos resume : nat) :
  StronglySorted (fun m1 m2 => snd m1 <= fst m2 /\ fst m1 < fst m2)
    (scan T text alts n pos resume).
Proof.
  revert pos resume. induction n as [|n IH]; intros pos resume; cbn [scan].
  - destruct (if pos <? resume then None else first_alternative T text alts pos);
      repeat constructor.
  - destruct (if pos <? resume then None else first_alternative T text alts pos)
      as [e|]; [|apply IH].
    constructor; [apply IH|].
    apply Forall_forall. intros [s e'] Hin.
    apply scan_In in Hin. simpl. lia.
Qed.

Lemma literal_at_Forall2 (alt : str) (pos : nat) :
  literal_at T text alt pos = true ->
  Forall2 (fun c t => Re.ci_match T c t = true) alt
    (slice text pos (pos + length alt)).
Proof.
  unfold slice. replace (pos + length alt - pos) with (length alt) by lia.
  revert pos. induction alt as [|c alt IH]; intros pos; simpl.
  - intros _. constructor.
  - destruct (nth_error text pos) as [t|] eqn:Ht; [|discriminate].
    intros H. apply andb_true_iff in H as [Hc Hrest].
    rewrite (skipn_nth_error_cons _ _ _ Ht). cbn [firstn].
    constructor; [assumption | now apply IH].
Qed.

Lemma at_boundary_not_splits (pos : nat) :
  Re.at_boundary T text pos = true -> ~ splits_word T text pos.
Proof.
  unfold Re.at_boundary. intros H (q & c & d & -> & Hq & Hp & Hc & Hd).
  rewrite Hp, Hq, Hc, Hd in H. discriminate.
Qed.

(** What a match reported by the scan is. *)
Lemma scan_text_In (alts : list str) (start end_ : Z) (form : str) :
  In ((start, end_), form) (scan_text T text alts) ->
  exists s e alt,
    start = Z.of_nat s /\ end_ = Z.of_nat e /\
    s <= e <= length text /\
    form = slice text s e /\
    Re.at_boundary T text s = true /\ Re.at_boundary T text e = true /\
    In alt alts /\ e = s + length alt /\
    Forall2 (fun c t => Re.ci_match T c t = true) alt form.
Proof.
  unfold scan_text. intros H. apply in_map_iff in H as [[s e] [E Hin]].
  unfold found_at in E. simpl in E. injection E as <- <- <-.
  apply scan_In in Hin as (_ & _ & HF).
  pose proof (first_alternative_bounds T text _ _ _ HF) as Hb.
  apply first_alternative_spec in HF as (Hbs & Hbe & alt & Hin & -> & Hl).
  exists s, (s + length alt), alt.
  repeat split; auto; try lia.
  now apply literal_at_Forall2.
Qed.

Lemma scan_text_sorted (alts : list str) :
  StronglySorted
    (fun m1 m2 : found =>
       (snd (fst m1) <= fst (fst m2) /\ fst (fst m1) < fst (fst m2))%Z)
    (scan_text T text alts).
Proof.
  unfold scan_text.
  pose proof (scan_sorted alts (length text) 0 0) as H.
  induction H as [|m l Hl IH Hall]; simpl; constructor; [assumption|].
  apply Forall_forall. intros x Hx. apply in_map_iff in Hx as [m' [<- Hm']].
  rewrite Forall_forall in Hall. specialize (Hall m' Hm').
  unfold found_at. simpl. lia.
Qed.

End ScanFacts.

(** C4. TermMatcher compiles the patterns of the expression into one
    alternation between two word boundaries, never fails, and returns the
    matches of the left-to-right scan that takes at each position the
    first alternative standing there, letter case apart, and resumes at
    the end of each match.  A match is the text as it is written; its
    ends do not split a run of word characters; the matches are in the
    order of the text and do not overlap; "ley" is not found in
    "leyenda", and this gives the empty list. *)
Theorem term_matcher_scan (T : Re.tables) (text expression : str) :
  let patterns := build_inflected_patterns expression in
  let alts := literal_alternatives patterns in
  (exists r,
      Re.compile (punctuation_aware_pattern patterns) = Some r /\
      between_boundaries alts = Some r) /\
  find_offsets_and_forms T text expression = Some (scan_text T text alts) /\
  (forall start end_ form,
      In ((start, end_), form) (scan_text T text alts) ->
      exists s e alt,
        start = Z.of_nat s /\ end_ = Z.of_nat e /\
        (s <= e <= length text)%nat /\
        form = slice text s e /\
        ~ splits_word T text s /\ ~ splits_word T text e /\
        In alt alts /\ e = (s + length alt)%nat /\
        Forall2 (fun c t => Re.ci_match T c t = true) alt form) /\
  StronglySorted
    (fun m1 m2 : found =>
       snd (fst m1) <= fst (fst m2) /\ fst (fst m1) < fst (fst m2))
    (scan_text T text alts) /\
  find_offsets_and_forms Re.latin1 (lit "leyenda") (lit "ley") = Some [] /\
  find_offsets_and_forms Re.latin1 (lit "La Mesa del comite") (lit "mesa") =
    Some [((3, 7), lit "Mesa")].
Proof.
  intros patterns alts. subst alts patterns.
  split; [|split; [|split; [|split; [|split]]]].
  - rewrite compile_patterns.
    destruct (literal_alternatives (build_inflected_patterns expression))
      as [|a rest] eqn:E.
    + exfalso. now apply (literal_alternatives_nonempty _ E).
    + now exists (Re.bounded a rest).
  - apply find_offsets_and_forms_scan.
  - intros start end_ form H.
    apply scan_text_In in H
      as (s & e & alt & H1 & H2 & H3 & H4 & H5 & H6 & H7 & H8 & H9).
    exists s, e, alt. repeat split; auto; try lia;
      now apply at_boundary_not_splits.
  - apply scan_text_sorted.
  - reflexivity.
  - reflexivity.
Qed.

(** C9. The letter case of the word of the lexicon changes what is found:
    "mesa" finds "mesas" in the text "mesas", "MESA" finds nothing there,
    because the plural made for "MESA" is "MESAes". *)
Theorem uppercase_word_misses_plural :
  generate_inflections (lit "mesa") = [lit "mesa"; lit "mesas"] /\
  generate_inflections (lit "MESA") = [lit "MESA"; lit "MESAes"] /\
  find_offsets_and_forms Re.latin1 (lit "mesas") (lit "mesa") =
    Some [((0, 5), lit "mesas")] /\
  find_offsets_and_forms Re.latin1 (lit "mesas") (lit "MESA") = Some [].
Proof. repeat split; reflexivity. Qed.

(* ------------------------------------------------------------------ *)
(** *** DictionaryScanner *)

Lemma record_results_app (results : results_index) (a b : list found) :
  record_results results (a ++ b) =
  record_results (record_results results a) b.
Proof. unfold record_results. apply fold_left_app. Qed.

Lemma scan_subterms_matches (T : Re.tables) (text : str)
    (subterms : list subterm_info) (results : results_index) :
  scan_subterms T text subterms results =
  Some (record_results results
          (flat_map (term_matches T text) (map Text subterms))).
Proof.
  revert results. induction subterms as [|s rest IH]; intros results.
  - reflexivity.
  - cbn [scan_subterms map flat_map].
    rewrite find_offsets_and_forms_scan. cbn [bind].
    rewrite IH. now rewrite record_results_app.
Qed.

Lemma scan_record_matches (T : Re.tables) (text termtype : str)
    (record : concept_record) (results : results_index) :
  scan_record T text termtype record results =
  Some (record_results results
          (flat_map (term_matches T text)
             (if eligible termtype record then terms_of record else []))).
Proof.
  unfold scan_record, eligible, terms_of.
  destruct (existsb (str_eqb termtype) (map DomainType (Body record)));
    [|reflexivity].
  destruct (SubLemas record) as [subterms|].
  - rewrite scan_subterms_matches. cbn [bind].
    rewrite find_offsets_and_forms_scan. cbn [bind].
    rewrite flat_map_app, record_results_app. simpl.
    now rewrite app_nil_r.
  - cbn [bind]. rewrite find_offsets_and_forms_scan. cbn [bind].
    simpl. now rewrite app_nil_r.
Qed.

Lemma scan_records_matches (T : Re.tables) (text termtype : str)
    (dje_data : list concept_record) (results : results_index) :
  scan_records T text termtype dje_data results =
  Some (record_results results
          (flat_map (term_matches T text) (scanned_terms termtype dje_data))).
Proof.
  revert results. induction dje_data as [|record rest IH]; intros results.
  - reflexivity.
  - cbn [scan_records]. rewrite scan_record_matches. cbn [bind].
    rewrite IH. unfold scanned_terms. cbn [flat_map].
    now rewrite flat_map_app, record_results_app.
Qed.

Lemma search_in_dle_matches (T : Re.tables) (dje_data : list concept_record)
    (text : str) (results : results_index) (termtype : str) :
  search_in_dle T dje_data text results termtype =
  Some (filter_offsets_across_words
          (record_results results
             (flat_map (term_matches T text)
                (scanned_terms termtype dje_data)))).
Proof.
  unfold search_in_dle. now rewrite scan_records_matches.
Qed.

Lemma dict_get_record_result (results : results_index) (positions : span)
    (form key : str) :
  dict_get key (record_result results (positions, form)) =
  if str_eqb form key then
    extended (dict_get key results) [positions]
  else dict_get key results.
Proof.
  unfold record_result.
  destruct (str_eqb form key) eqn:E.
  - apply str_eqb_eq in E. subst key.
    destruct (dict_get form results); now rewrite dict_get_set_same.
  - apply str_eqb_neq in E.
    destruct (dict_get form results);
      rewrite dict_get_set_other by congruence; reflexivity.
Qed.

Lemma dict_get_record_results (results : results_index)
    (found_here : list found) (key : str) :
  dict_get key (record_results results found_here) =
  extended (dict_get key results) (spans_of key found_here).
Proof.
  unfold record_results. revert results.
  induction found_here as [|[positions form] rest IH]; intros results.
  - simpl. destruct (dict_get key results) as [o|]; simpl;
      [now rewrite app_nil_r | reflexivity].
  - cbn [fold_left]. rewrite IH, dict_get_record_result.
    unfold spans_of. cbn [filter snd].
    destruct (str_eqb form key); [|reflexivity].
    cbn [map fst].
    destruct (dict_get key results) as [o|]; simpl.
    + now rewrite <- app_assoc.
    + reflexivity.
Qed.

Lemma existsb_str_eqb_In (k : str) (l : list str) :
  existsb (str_eqb k) l = true <-> In k l.
Proof.
  rewrite existsb_exists. split.
  - intros [x [Hin E]]. apply str_eqb_eq in E. now subst.
  - intros Hin. exists k. split; [assumption | apply str_eqb_refl].
Qed.

Lemma keys_dict_set {V : Type} (k : str) (v : V) (d : dict V) :
  keys (dict_set k v d) =
  if existsb (str_eqb k) (keys d) then keys d else keys d ++ [k].
Proof.
  destruct (existsb (str_eqb k) (keys d)) eqn:E.
  - apply keys_dict_set_mem. now apply existsb_str_eqb_In.
  - rewrite dict_set_fresh.
    + unfold keys. now rewrite map_app.
    + intros Hin. apply existsb_str_eqb_In in Hin. congruence.
Qed.

Lemma keys_record_result (results : results_index) (m : found) :
  keys (record_result results m) =
  if existsb (str_eqb (snd m)) (keys results) then keys results
  else keys results ++ [snd m].
Proof.
  destruct m as [positions form]. unfold record_result. simpl.
  destruct (dict_get form results); apply keys_dict_set.
Qed.

Lemma keys_record_results (results : results_index)
    (found_here : list found) :
  keys (record_results results found_here) =
  keys results ++ new_keys (keys results) (map snd found_here).
Proof.
  unfold record_results. revert results.
  induction found_here as [|m rest IH]; intros results.
  - simpl. now rewrite app_nil_r.
  - cbn [fold_left map new_keys]. rewrite IH, keys_record_result.
    destruct (existsb (str_eqb (snd m)) (keys results)); [reflexivity|].
    now rewrite <- app_assoc.
Qed.

(* ------------------------------------------------------------------ *)
(** *** DictionaryScanner on an index whose lists are objects *)

Lemma view_get (results : Shared.index) (key : str) :
  dict_get key (Shared.view results) =
  option_map (Shared.heap results) (dict_get key (Shared.refs results)).
Proof.
  unfold Shared.view.
  induction (Shared.refs results) as [|[k l] r IH]; simpl; [reflexivity|].
  destruct (str_eqb key k); [reflexivity | exact IH].
Qed.

Lemma view_keys (results : Shared.index) :
  keys (Shared.view results) = keys (Shared.refs results).
Proof. unfold Shared.view, keys. now rewrite map_map. Qed.

Lemma fresh_above (r : dict nat) (k : str) (l : nat) :
  In (k, l) r -> (l < Shared.fresh r)%nat.
Proof.
  unfold Shared.fresh.
  induction r as [|[k0 l0] r IH]; simpl; [intros []|].
  intros [[= -> ->] | Hin]; [lia|]. specialize (IH Hin). lia.
Qed.

Lemma fresh_not_held (r : dict nat) (k : str) (l : nat) :
  dict_get k r = Some l -> (l =? Shared.fresh r)%nat = false.
Proof.
  intros H. apply dict_get_In, fresh_above in H.
  apply Nat.eqb_neq. lia.
Qed.

Lemma shared_record_results_app (results : Shared.index)
    (a b : list found) :
  Shared.record_results results (a ++ b) =
  Shared.record_results (Shared.record_results results a) b.
Proof. unfold Shared.record_results. apply fold_left_app. Qed.

Lemma shared_scan_subterms_matches (T : Re.tables) (text : str)
    (subterms : list subterm_info) (results : Shared.index) :
  Shared.scan_subterms T text subterms results =
  Some (Shared.record_results results
          (flat_map (term_matches T text) (map Text subterms))).
Proof.
  revert results. induction subterms as [|s rest IH]; intros results.
  - reflexivity.
  - cbn [Shared.scan_subterms map flat_map].
    rewrite find_offsets_and_forms_scan. cbn [bind].
    rewrite IH. now rewrite shared_record_results_app.
Qed.

Lemma shared_scan_record_matches (T : Re.tables) (text termtype : str)
    (record : concept_record) (results : Shared.index) :
  Shared.scan_record T text termtype record results =
  Some (Shared.record_results results
          (flat_map (term_matches T text)
             (if eligible termtype record then terms_of record else []))).
Proof.
  unfold Shared.scan_record, eligible, terms_of.
  destruct (existsb (str_eqb termtype) (map DomainType (Body record)));
    [|reflexivity].
  destruct (SubLemas record) as [subterms|].
  - rewrite shared_scan_subterms_matches. cbn [bind].
    rewrite find_offsets_and_forms_scan. cbn [bind].
    rewrite flat_map_app, shared_record_results_app. simpl.
    now rewrite app_nil_r.
  - cbn [bind]. rewrite find_offsets_and_forms_scan. cbn [bind].
    simpl. now rewrite app_nil_r.
Qed.

Lemma shared_scan_records_matches (T : Re.tables) (text termtype : str)
    (dje_data : list concept_record) (results : Shared.index) :
  Shared.scan_records T text termtype dje_data results =
  Some (Shared.record_results results
          (flat_map (term_matches T text) (scanned_terms termtype dje_data))).
Proof.
  revert results. induction dje_data as [|record rest IH]; intros results.
  - reflexivity.
  - cbn [Shared.scan_records]. rewrite shared_scan_record_matches.
    cbn [bind]. rewrite IH. unfold scanned_terms. cbn [flat_map].
    now rewrite flat_map_app, shared_record_results_app.
Qed.

Lemma shared_search_in_dle_matches (T : Re.tables)
    (dje_data : list concept_record) (text : str)
    (results : Shared.index) (termtype : str) :
  Shared.search_in_dle T dje_data text results termtype =
  Some (filter_offsets_across_words
          (Shared.view
             (Shared.record_results results
                (flat_map (term_matches T text)
                   (scanned_terms termtype dje_data))))).
Proof.
  unfold Shared.search_in_dle. now rewrite shared_scan_records_matches.
Qed.

(** One match: its span goes to the end of the list of its text, and so
    to every key that holds that list. *)
Lemma shared_get_record_result (results : Shared.index) (positions : span)
    (form key : str) :
  dict_get key (Shared.view (Shared.record_result results (positions, form)))
  = if Shared.same_list results key form then
      extended (dict_get key (Shared.view results)) [positions]
    else dict_get key (Shared.view results).
Proof.
  rewrite !view_get. unfold Shared.record_result, Shared.same_list.
  destruct (dict_get form (Shared.refs results)) as [lf|] eqn:Hf.
  - cbn [Shared.refs Shared.heap].
    destruct (dict_get key (Shared.refs results)) as [l|] eqn:Hk; simpl.
    + unfold Shared.update. destruct (l =? lf)%nat eqn:E; [|reflexivity].
      apply Nat.eqb_eq in E. now subst l.
    + destruct (str_eqb key form) eqn:E; [|reflexivity].
      apply str_eqb_eq in E. congruence.
  - cbn [Shared.refs Shared.heap].
    replace (match dict_get key (Shared.refs results) with
             | Some _ | _ => str_eqb key form
             end) with (str_eqb key form)
      by now destruct (dict_get key (Shared.refs results)).
    destruct (str_eqb key form) eqn:E.
    + apply str_eqb_eq in E. subst key.
      rewrite dict_get_set_same, Hf. simpl.
      unfold Shared.update. now rewrite Nat.eqb_refl.
    + apply str_eqb_neq in E. rewrite dict_get_set_other by assumption.
      destruct (dict_get key (Shared.refs results)) as [l|] eqn:Hk;
        [|reflexivity].
      simpl. unfold Shared.update.
      now rewrite (fresh_not_held _ key l Hk).
Qed.

(** The keys that hold one list stay the same while matches are
    recorded: a new key gets a list that no other key holds. *)
Lemma shared_same_list_record_result (results : Shared.index) (m : found)
    (k f : str) :
  Shared.same_list (Shared.record_result results m) k f =
  Shared.same_list results k f.
Proof.
  destruct m as [positions g].
  unfold Shared.same_list, Shared.record_result.
  destruct (dict_get g (Shared.refs results)) as [lg|] eqn:Hg;
    cbn [Shared.refs]; [reflexivity|].
  destruct (str_eq_dec k g) as [-> | Hk], (str_eq_dec f g) as [-> | Hf];
    rewrite ?dict_get_set_same, ?dict_get_set_other, ?Hg by assumption.
  - now rewrite Nat.eqb_refl, str_eqb_refl.
  - destruct (dict_get f (Shared.refs results)) as [l'|] eqn:Hf';
      [|reflexivity].
    rewrite Nat.eqb_sym, (fresh_not_held _ f l' Hf').
    symmetry. apply str_eqb_neq. congruence.
  - destruct (dict_get k (Shared.refs results)) as [l|] eqn:Hk';
      [|reflexivity].
    rewrite (fresh_not_held _ k l Hk').
    symmetry. now apply str_eqb_neq.
  - reflexivity.
Qed.

Lemma shared_get_record_results (results : Shared.index)
    (found_here : list found) (key : str) :
  dict_get key (Shared.view (Shared.record_results results found_here)) =
  extended (dict_get key (Shared.view results))
    (map fst
       (filter (fun m => Shared.same_list results key (snd m)) found_here)).
Proof.
  unfold Shared.record_results. revert results.
  induction found_here as [|[positions form] rest IH]; intros results.
  - simpl. destruct (dict_get key (Shared.view results)) as [o|]; simpl;
      [now rewrite app_nil_r | reflexivity].
  - cbn [fold_left]. rewrite IH, shared_get_record_result.
    rewrite (filter_ext _ (fun m => Shared.same_list results key (snd m)))
      by (intros m; apply shared_same_list_record_result).
    cbn [filter snd].
    destruct (Shared.same_list results key form); [|reflexivity].
    cbn [map fst].
    destruct (dict_get key (Shared.view results)) as [o|]; simpl.
    + now rewrite <- app_assoc.
    + reflexivity.
Qed.

Lemma shared_keys_record_result (results : Shared.index) (m : found) :
  keys (Shared.view (Shared.record_result results m)) =
  if existsb (str_eqb (snd m)) (keys (Shared.view results))
  then keys (Shared.view results)
  else keys (Shared.view results) ++ [snd m].
Proof.
  destruct m as [positions form]. rewrite !view_keys.
  unfold Shared.record_result. cbn [snd].
  destruct (dict_get form (Shared.refs results)) as [l|] eqn:Hf;
    cbn [Shared.refs].
  - replace (existsb (str_eqb form) (keys (Shared.refs results))) with true;
      [reflexivity|].
    symmetry. apply existsb_str_eqb_In.
    apply dict_get_In in Hf. unfold keys. apply in_map_iff.
    now exists (form, l).
  - apply keys_dict_set.
Qed.

Lemma shared_keys_record_results (results : Shared.index)
    (found_here : list found) :
  keys (Shared.view (Shared.record_results results found_here)) =
  keys (Shared.view results) ++
  new_keys (keys (Shared.view results)) (map snd found_here).
Proof.
  unfold Shared.record_results. revert results.
  induction found_here as [|m rest IH]; intros results.
  - simpl. now rewrite app_nil_r.
  - cbn [fold_left map new_keys]. rewrite IH, shared_keys_record_result.
    destruct (existsb (str_eqb (snd m)) (keys (Shared.view results)));
      [reflexivity|].
    now rewrite <- app_assoc.
Qed.

Lemma shared_same_list_refl (results : Shared.index) (key : str) :
  Shared.same_list results key key = true.
Proof.
  unfold Shared.same_list.
  destruct (dict_get key (Shared.refs results));
    [apply Nat.eqb_refl | apply str_eqb_refl].
Qed.

Lemma unshared_one_key (r : dict nat) (k f : str) (l : nat) :
  NoDup (map snd r) -> In (k, l) r -> In (f, l) r -> k = f.
Proof.
  induction r as [|[k0 l0] r IH]; simpl; [intros _ []|].
  intros Hnd Hk Hf. inversion Hnd as [|? ? Hni Hnd']; subst.
  assert (Hl : forall x, In (x, l0) r -> False).
  { intros x Hx. apply Hni. apply in_map_iff. now exists (x, l0). }
  destruct Hk as [Hk | Hk], Hf as [Hf | Hf].
  - congruence.
  - injection Hk as _ ->. exfalso. now apply (Hl f).
  - injection Hf as _ ->. exfalso. now apply (Hl k).
  - now apply IH.
Qed.

Lemma shared_same_list_unshared (results : Shared.index) (k f : str) :
  Shared.unshared results ->
  Shared.same_list results k f = str_eqb k f.
Proof.
  intros Hu. unfold Shared.same_list.
  destruct (dict_get k (Shared.refs results)) as [l|] eqn:Hk;
    [|reflexivity].
  destruct (dict_get f (Shared.refs results)) as [l'|] eqn:Hf;
    [|reflexivity].
  destruct (str_eqb k f) eqn:E.
  - apply str_eqb_eq in E. subst f. apply Nat.eqb_eq. congruence.
  - apply Nat.eqb_neq. intros ->. apply str_eqb_neq in E. apply E.
    apply dict_get_In in Hk, Hf.
    now apply (unshared_one_key (Shared.refs results) k f l').
Qed.

(** The lists held by value: exact for an index of which no two keys
    hold one list object. *)
Lemma map_update_other (h : nat -> list span) (l : nat) (v : list span)
    (r : dict nat) :
  ~ In l (map snd r) ->
  map (fun item => (fst item, Shared.update h l v (snd item))) r =
  map (fun item => (fst item, h (snd item))) r.
Proof.
  intros Hni. apply map_ext_in. intros [k l0] Hin. simpl.
  unfold Shared.update. destruct (l0 =? l)%nat eqn:E; [|reflexivity].
  apply Nat.eqb_eq in E. subst l0. exfalso. apply Hni.
  apply in_map_iff. now exists (k, l).
Qed.

Lemma view_update_unshared (h : nat -> list span) (r : dict nat) (f : str)
    (l : nat) (v : list span) :
  dict_get f r = Some l -> NoDup (map snd r) ->
  map (fun item => (fst item, Shared.update h l v (snd item))) r =
  dict_set f v (map (fun item => (fst item, h (snd item))) r).
Proof.
  induction r as [|[k0 l0] r IH]; simpl; [discriminate|].
  intros Hget Hnd. inversion Hnd as [|? ? Hni Hnd']; subst.
  destruct (str_eqb f k0) eqn:E.
  - injection Hget as ->. unfold Shared.update at 1.
    rewrite Nat.eqb_refl. f_equal. now apply map_update_other.
  - assert (Hne : (l0 =? l)%nat = false).
    { apply Nat.eqb_neq. intros ->. apply Hni.
      apply dict_get_In in Hget. apply in_map_iff. now exists (f, l). }
    unfold Shared.update at 1. rewrite Hne. f_equal. now apply IH.
Qed.

Lemma view_record_result_unshared (results : Shared.index) (m : found) :
  Shared.unshared results ->
  Shared.view (Shared.record_result results m) =
    record_result (Shared.view results) m /\
  Shared.unshared (Shared.record_result results m).
Proof.
  destruct m as [positions form]. unfold Shared.unshared. intros Hu.
  unfold record_result, Shared.record_result. rewrite view_get.
  destruct (dict_get form (Shared.refs results)) as [l|] eqn:Hf; simpl.
  - split; [|exact Hu]. unfold Shared.view. cbn [Shared.refs Shared.heap].
    now apply view_update_unshared.
  - assert (Hni : ~ In form (keys (Shared.refs results))).
    { intros Hin. apply dict_mem_keys in Hin. unfold dict_mem in Hin.
      rewrite Hf in Hin. discriminate. }
    assert (Hfresh : ~ In (Shared.fresh (Shared.refs results))
                       (map snd (Shared.refs results))).
    { intros Hin. apply in_map_iff in Hin as [[k l] [E Hin]].
      simpl in E. subst l. apply fresh_above in Hin. lia. }
    rewrite dict_set_fresh by assumption. split.
    + unfold Shared.view. cbn [Shared.refs Shared.heap].
      rewrite map_app, map_update_other by assumption. simpl.
      unfold Shared.update. rewrite Nat.eqb_refl.
      rewrite dict_set_fresh; [reflexivity|].
      fold (Shared.view results). now rewrite view_keys.
    + rewrite map_app. simpl. apply NoDup_app; [assumption | | ].
      * repeat constructor. intros [].
      * intros x Hx [<- | []]. contradiction.
Qed.

Lemma view_record_results_unshared (results : Shared.index)
    (found_here : list found) :
  Shared.unshared results ->
  Shared.view (Shared.record_results results found_here) =
  record_results (Shared.view results) found_here.
Proof.
  unfold Shared.record_results, record_results. revert results.
  induction found_here as [|m rest IH]; intros results Hu; [reflexivity|].
  cbn [fold_left].
  destruct (view_record_result_unshared results m Hu) as [E Hu'].
  now rewrite IH, E.
Qed.

Lemma search_in_dle_by_value (T : Re.tables)
    (dje_data : list concept_record) (text : str)
    (results : Shared.index) (termtype : str) :
  Shared.unshared results ->
  Shared.search_in_dle T dje_data text results termtype =
  search_in_dle T dje_data text (Shared.view results) termtype.
Proof.
  intros Hu. rewrite shared_search_in_dle_matches, search_in_dle_matches.
  now rewrite view_record_results_unshared.
Qed.

(** C5. The scanner goes through the entries in order, takes those whose
    [Body] holds the tag among its [Type] values, scans the subterms of
    such an entry and then its name, and appends the span of every match
    to the list of the text matched: a first match makes the key with a
    list of its own, a later one extends the list object of the key (and
    so the list of every key of the index given that holds the same
    object), and nothing is deduplicated.  The resolver is applied once,
    to the index so filled, and its result is returned. *)
Theorem scanner_appends_then_resolves (T : Re.tables)
    (dje_data : list concept_record) (text : str)
    (results : Shared.index) (termtype : str) :
  Shared.search_in_dle T dje_data text results termtype =
    Some (filter_offsets_across_words
            (Shared.view
               (Shared.record_results results
                  (flat_map (term_matches T text)
                     (scanned_terms termtype dje_data))))) /\
  (forall term,
      find_offsets_and_forms T text term = Some (term_matches T text term)) /\
  (forall record,
      eligible termtype record = true <->
      In termtype (map DomainType (Body record))) /\
  (forall record rest,
      scanned_terms termtype (record :: rest) =
      (if eligible termtype record
       then match SubLemas record with
            | Some subterms => map Text subterms
            | None => []
            end ++ [Name record]
       else []) ++ scanned_terms termtype rest) /\
  (forall index positions form key,
      dict_get key
        (Shared.view (Shared.record_result index (positions, form))) =
      if Shared.same_list index key form then
        extended (dict_get key (Shared.view index)) [positions]
      else dict_get key (Shared.view index)) /\
  (forall found_here key,
      dict_get key (Shared.view (Shared.record_results results found_here)) =
      extended (dict_get key (Shared.view results))
        (map fst
           (filter (fun m => Shared.same_list results key (snd m))
              found_here))) /\
  (forall found_here,
      keys (Shared.view (Shared.record_results results found_here)) =
      keys (Shared.view results) ++
      new_keys (keys (Shared.view results)) (map snd found_here)) /\
  (forall key, Shared.same_list results key key = true) /\
  (Shared.unshared results ->
   (forall key form, Shared.same_list results key form = str_eqb key form) /\
   (forall found_here key,
       dict_get key
         (Shared.view (Shared.record_results results found_here)) =
       extended (dict_get key (Shared.view results))
         (spans_of key found_here)) /\
   Shared.search_in_dle T dje_data text results termtype =
     search_in_dle T dje_data text (Shared.view results) termtype).
Proof.
  split; [apply shared_search_in_dle_matches|].
  split; [intros term; apply find_offsets_and_forms_scan|].
  split; [intros record; apply existsb_str_eqb_In|].
  split; [reflexivity|].
  split; [intros; apply shared_get_record_result|].
  split; [intros; apply shared_get_record_results|].
  split; [intros; apply shared_keys_record_results|].
  split; [intros; apply shared_same_list_refl|].
  intros Hu.
  split; [intros; now apply shared_same_list_unshared|].
  split; [|now apply search_in_dle_by_value].
  intros found_here key. rewrite shared_get_record_results.
  f_equal. unfold spans_of. f_equal. apply filter_ext. intros m.
  rewrite shared_same_list_unshared by assumption.
  destruct (str_eqb key (snd m)) eqn:E.
  - apply str_eqb_eq in E. rewrite <- E. symmetry. apply str_eqb_refl.
  - symmetry. apply str_eqb_neq. apply str_eqb_neq in E. congruence.
Qed.


(* ------------------------------------------------------------------ *)
(** *** The spans of the final index *)

Lemma In_dict_set {V : Type} (k k' : str) (v v' : V) (d : dict V) :
  In (k', v') (dict_set k v d) -> (k' = k /\ v' = v) \/ In (k', v') d.
Proof.
  induction d as [|[k0 v0] d IH]; simpl.
  - intros [[= <- <-] | []]. now left.
  - destruct (str_eqb k k0) eqn:E.
    + apply str_eqb_eq in E. subst k0.
      intros [[= <- <-] | Hin]; [now left | right; now right].
    + intros [H | Hin]; [right; now left|].
      destruct (IH Hin) as [H | H]; [now left | right; now right].
Qed.

Lemma record_result_all (P : str -> span -> Prop) (results : results_index)
    (positions : span) (form : str) :
  index_all P results -> P form positions ->
  index_all P (record_result results (positions, form)).
Proof.
  intros Hall Hp key offsets sp Hin Hsp. unfold record_result in Hin.
  destruct (dict_get form results) as [o|] eqn:Hget;
    apply In_dict_set in Hin as [[-> ->] | Hin];
    try (now apply (Hall key offsets)).
  - apply in_app_or in Hsp as [Hsp | [<- | []]]; [|assumption].
    apply dict_get_In in Hget. now apply (Hall form o).
  - destruct Hsp as [<- | []]. assumption.
Qed.

Lemma record_results_all (P : str -> span -> Prop) (results : results_index)
    (found_here : list found) :
  index_all P results ->
  (forall positions form, In (positions, form) found_here -> P form positions) ->
  index_all P (record_results results found_here).
Proof.
  unfold record_results. revert results.
  induction found_here as [|[positions form] rest IH]; intros results Hall Hf.
  - exact Hall.
  - cbn [fold_left]. apply IH.
    + apply record_result_all; [assumption | apply Hf; now left].
    + intros p f Hin. apply Hf. now right.
Qed.

(** The resolver only removes: what it leaves under a key was there. *)
Lemma filter_offsets_across_words_incl (data : results_index) (key : str)
    (kept : list span) :
  In (key, kept) (filter_offsets_across_words data) ->
  exists offsets, In (key, offsets) data /\ incl kept offsets.
Proof.
  unfold filter_offsets_across_words.
  assert (H : forall items acc,
             incl items data ->
             (forall k v, In (k, v) acc ->
                          exists offsets, In (k, offsets) data /\ incl v offsets) ->
             forall k v,
               In (k, v)
                  (fold_left
                     (fun filtered_data item =>
                        let '(current_word, current_offsets) := item in
                        dict_set current_word
                          (filter_current_offsets data current_word
                             current_offsets)
                          filtered_data)
                     items acc) ->
               exists offsets, In (k, offsets) data /\ incl v offsets).
  { induction items as [|[w offs] items IH]; intros acc Hincl Hacc k v Hin.
    - now apply Hacc.
    - cbn [fold_left] in Hin. apply IH in Hin; auto.
      + intros x Hx. apply Hincl. now right.
      + intros k' v' Hin'. apply In_dict_set in Hin' as [[-> ->] | Hin'].
        * exists offs. split; [apply Hincl; now left|].
          rewrite filter_current_offsets_filter. apply incl_filter.
        * now apply Hacc. }
  apply (H data []); [apply incl_refl | intros k v []].
Qed.

Lemma filter_offsets_across_words_all (P : str -> span -> Prop)
    (data : results_index) :
  index_all P data -> index_all P (filter_offsets_across_words data).
Proof.
  intros Hall key kept sp Hin Hsp.
  apply filter_offsets_across_words_incl in Hin as [offsets [Hin Hincl]].
  apply (Hall key offsets); auto.
Qed.

Lemma term_matches_substring (T : Re.tables) (text term : str)
    (positions : span) (form : str) :
  In (positions, form) (term_matches T text term) ->
  substring_at text form positions.
Proof.
  destruct positions as [start end_]. intros H.
  apply scan_text_In in H as (s & e & alt & -> & -> & Hb & -> & _).
  unfold substring_at. simpl. rewrite !Nat2Z.id. repeat split; lia.
Qed.

Lemma term_matches_nonempty (T : Re.tables) (text term : str)
    (positions : span) (form : str) :
  split term <> [] ->
  In (positions, form) (term_matches T text term) ->
  fst positions < snd positions.
Proof.
  destruct positions as [start end_]. intros Hw H.
  pose proof (literal_alternatives_words term Hw) as Hne.
  apply scan_text_In in H
    as (s & e & alt & -> & -> & _ & _ & _ & _ & Hin & -> & _).
  rewrite Forall_forall in Hne. specialize (Hne alt Hin).
  destruct alt; [contradiction|]. simpl. lia.
Qed.

Lemma length_slice (text : str) (s e : nat) :
  (s <= e <= length text)%nat -> length (slice text s e) = (e - s)%nat.
Proof.
  intros H. unfold slice. rewrite length_firstn, length_skipn. lia.
Qed.

Lemma In_flat_map_matches (T : Re.tables) (text : str) (terms : list str)
    (m : found) :
  In m (flat_map (term_matches T text) terms) ->
  exists term, In term terms /\ In m (term_matches T text term).
Proof. intros H. apply in_flat_map in H. exact H. Qed.

(** A term that holds no word is looked for as the empty alternative,
    found at every word boundary and recorded with empty spans: a span of
    the final index need not have [start < end]. *)
Lemma blank_term_gives_empty_span :
  exists index,
    search_in_dle Re.latin1 blank_subterm_lexicon (lit "a b") []
      default_termtype = Some index /\
    ~ index_all (nonempty_substring_at (lit "a b")) index.
Proof.
  exists [([], [(0, 0); (1, 1); (2, 2); (3, 3)])]. split; [reflexivity|].
  intros H.
  specialize (H [] [(0, 0); (1, 1); (2, 2); (3, 3)] (0, 0)
                (or_introl eq_refl) (or_introl eq_refl)).
  unfold nonempty_substring_at in H. simpl in H. lia.
Qed.

(** C7, as amended.  Every pair of a key and a span of the final index
    has [0 <= start <= end <= len(text)] and [text[start:end] == key];
    the span is not empty exactly when the key is not, and no span is
    empty when every term scanned holds a word. *)
Theorem final_index_spans (T : Re.tables) (dje_data : list concept_record)
    (text : str) (termtype : str) :
  exists index,
    search_in_dle T dje_data text [] termtype = Some index /\
    index_all (substring_at text) index /\
    index_all (fun key sp => key <> [] <-> fst sp < snd sp) index /\
    ((forall term,
         In term (scanned_terms termtype dje_data) -> split term <> []) ->
     index_all (nonempty_substring_at text) index).
Proof.
  rewrite search_in_dle_matches. eexists. split; [reflexivity|].
  set (found_all := flat_map (term_matches T text)
                      (scanned_terms termtype dje_data)).
  assert (Hsub : index_all (substring_at text)
                   (filter_offsets_across_words
                      (record_results [] found_all))).
  { apply filter_offsets_across_words_all, record_results_all.
    - intros key offsets sp [].
    - intros positions form Hin.
      apply In_flat_map_matches in Hin as [term [_ Hin]].
      now apply (term_matches_substring T text term). }
  split; [exact Hsub|]. split.
  - intros key offsets [start end_] Hin Hsp.
    destruct (Hsub key offsets (start, end_) Hin Hsp) as (Hb & Hl & E).
    simpl in *.
    assert (Hlen : length key = (Z.to_nat end_ - Z.to_nat start)%nat).
    { rewrite <- E. apply length_slice. lia. }
    split.
    + intros Hne. destruct key; [contradiction|]. simpl in Hlen. lia.
    + intros Hlt Ek. rewrite Ek in Hlen. simpl in Hlen. lia.
  - intros Hwords.
    assert (Hlt : index_all (fun _ sp => fst sp < snd sp)
                    (filter_offsets_across_words
                       (record_results [] found_all))).
    { apply filter_offsets_across_words_all, record_results_all.
      - intros key offsets sp [].
      - intros positions form Hin.
        apply In_flat_map_matches in Hin as [term [Hterm Hin]].
        apply (term_matches_nonempty T text term positions form); auto. }
    intros key offsets sp Hin Hsp.
    destruct (Hsub key offsets sp Hin Hsp) as (Hb & Hl & E).
    specialize (Hlt key offsets sp Hin Hsp). simpl in Hlt.
    unfold nonempty_substring_at. repeat split; auto; lia.
Qed.

(* ------------------------------------------------------------------ *)
(** *** The examples of section 8 of the specification *)

Example resolver_short_in_long :
  filter_offsets_across_words short_in_long =
  [(lit "A", []); (lit "B", [(0, 10)])].
Proof. reflexivity. Qed.

Example resolver_two_keys_one_span :
  filter_offsets_across_words two_keys_one_span =
  [(lit "A", []); (lit "B", [])].
Proof. reflexivity. Qed.

Example resolver_one_key_nested :
  filter_offsets_across_words one_key_nested = one_key_nested.
Proof. reflexivity. Qed.

Example single_word_keeps_white_space :
  build_inflected_patterns (lit " mesa") =
  [[Re.backslash] ++ lit " mesa"; [Re.backslash] ++ lit " mesas"].
Proof. reflexivity. Qed.

Example empty_expression_matches_boundaries :
  find_offsets_and_forms Re.latin1 (lit "a b") (lit " ") =
  Some [((0, 0), []); ((1, 1), []); ((2, 2), []); ((3, 3), [])].
Proof. reflexivity. Qed.

Example end_to_end :
  annotate Re.latin1
    [{| Name := lit "arbitraje"; SubLemas := None;
        Body := [{| DomainType := lit "Lab." |}] |}]
    (lit "El arbitraje laboral fue exitoso. Hubo arbitrajes previos.") =
  Some [lit "T1" ++ [tab] ++ lit "concept 3 12" ++ [tab] ++
          lit "arbitraje" ++ [newline];
        lit "T2" ++ [tab] ++ lit "concept 39 49" ++ [tab] ++
          lit "arbitrajes" ++ [newline]].
Proof. reflexivity. Qed.

Example other_domain_is_skipped :
  search_in_dle Re.latin1
    [{| Name := lit "arbitraje"; SubLemas := None;
        Body := [{| DomainType := lit "Gral." |}] |}]
    (lit "El arbitraje laboral") [] default_termtype = Some [].
Proof. reflexivity. Qed.

Example empty_name_is_recorded :
  search_in_dle Re.latin1 nameless_lexicon (lit "a") [] default_termtype =
  Some [([], [(0, 0); (1, 1)])].
Proof. reflexivity. Qed.

(** Two keys on one list object: the match of ['ley'] goes to the list
    of both, each span lies in the span of the other key, and the
    resolver drops them all. *)
Example one_list_two_keys_both_extended :
  Shared.view
    (Shared.record_results one_list_two_keys
       (term_matches Re.latin1 (lit "la ley") (lit "ley"))) =
  [(lit "ley", [(3, 6)]); (lit "leyes", [(3, 6)])].
Proof. reflexivity. Qed.

Example one_list_two_keys_resolved :
  Shared.search_in_dle Re.latin1 ley_lexicon (lit "la ley")
    one_list_two_keys default_termtype =
  Some [(lit "ley", []); (lit "leyes", [])].
Proof. reflexivity. Qed.

Example empty_index_resolved :
  Shared.search_in_dle Re.latin1 ley_lexicon (lit "la ley")
    Shared.empty default_termtype =
  Some [(lit "ley", [(3, 6)])].
Proof. reflexivity. Qed.

(* ================================================================== *)
(** * Further properties of the code *)

(* ------------------------------------------------------------------ *)
(** *** OverlapResolver: what it returns *)

Lemma filter_all_kept {A : Type} (f : A -> bool) (l : list A) :
  (forall x, In x l -> f x = true) -> filter f l = l.
Proof.
  induction l as [|x l IH]; intros H; simpl; [reflexivity|].
  rewrite (H x (or_introl eq_refl)). f_equal. apply IH.
  intros y Hy. apply H. now right.
Qed.

Lemma map_fixed {A : Type} (f : A -> A) (l : list A) :
  (forall x, In x l -> f x = x) -> map f l = l.
Proof.
  induction l as [|x l IH]; intros H; simpl; [reflexivity|].
  rewrite (H x (or_introl eq_refl)). f_equal. apply IH.
  intros y Hy. apply H. now right.
Qed.

(** A span contained in a span of another key of the output was so in
    the input. *)
Lemma contained_elsewhere_filtered (data : results_index) (K : str)
    (sp : span) :
  contained_elsewhere (filter_offsets_across_words data) K sp ->
  contained_elsewhere data K sp.
Proof.
  intros (K2 & kept2 & start2 & end2 & Hin & Hne & Hin2 & Hs & He).
  apply filter_offsets_across_words_incl in Hin as [offsets2 [Hin Hincl]].
  exists K2, offsets2, start2, end2. repeat split; auto.
Qed.

Lemma kept_offsets_not_contained (data : results_index) (K : str)
    (offsets : list span) (sp : span) :
  In sp (kept_offsets data K offsets) -> ~ contained_elsewhere data K sp.
Proof.
  unfold kept_offsets. intros H Hc. apply filter_In in H as [_ H].
  apply contained_elsewhereb_spec in Hc. rewrite Hc in H. discriminate.
Qed.

Lemma dict_wf_filter_offsets_across_words (data : results_index) :
  dict_wf data -> dict_wf (filter_offsets_across_words data).
Proof.
  intros Hwf. unfold dict_wf.
  now rewrite keys_filter_offsets_across_words.
Qed.

(** X1. The postcondition of the docstring: in the dictionary returned,
    no span of a key lies inside a span of another key. *)
Theorem resolver_output_is_free_of_containment (data : results_index)
    (K : str) (kept : list span) (sp : span) :
  dict_wf data ->
  In (K, kept) (filter_offsets_across_words data) -> In sp kept ->
  ~ contained_elsewhere (filter_offsets_across_words data) K sp.
Proof.
  intros Hwf Hin Hsp Hc.
  apply contained_elsewhere_filtered in Hc.
  rewrite filter_offsets_across_words_map in Hin by assumption.
  apply in_map_iff in Hin as [[K' offsets] [E Hin]].
  simpl in E. injection E as <- <-.
  now apply (kept_offsets_not_contained data K' offsets sp).
Qed.

Lemma resolver_output_is_free_of_containment_witness :
  dict_wf short_in_long /\
  ~ contained_elsewhere (filter_offsets_across_words short_in_long)
      (lit "B") (0, 10).
Proof.
  assert (Hwf : dict_wf short_in_long) by solve_wf.
  split; [exact Hwf|].
  apply (resolver_output_is_free_of_containment short_in_long (lit "B")
           [(0, 10)] (0, 10) Hwf).
  - right; left; reflexivity.
  - left; reflexivity.
Defined.

(** X2. The resolver is idempotent: a second pass removes nothing. *)
Theorem resolver_idempotent (data : results_index) :
  dict_wf data ->
  filter_offsets_across_words (filter_offsets_across_words data) =
  filter_offsets_across_words data.
Proof.
  intros Hwf.
  rewrite (filter_offsets_across_words_map (filter_offsets_across_words data))
    by now apply dict_wf_filter_offsets_across_words.
  apply map_fixed. intros [K kept] Hin. simpl. f_equal.
  unfold kept_offsets at 1. apply filter_all_kept.
  intros sp Hsp. apply negb_true_iff.
  destruct (contained_elsewhereb (filter_offsets_across_words data) K sp)
    eqn:E; [|reflexivity].
  exfalso. apply contained_elsewhereb_spec in E.
  apply contained_elsewhere_filtered in E.
  rewrite filter_offsets_across_words_map in Hin by assumption.
  apply in_map_iff in Hin as [[K' offsets] [E' Hin]].
  simpl in E'. injection E' as <- <-.
  now apply (kept_offsets_not_contained data K' offsets sp).
Qed.

Lemma resolver_idempotent_witness :
  filter_offsets_across_words (filter_offsets_across_words short_in_long) =
  filter_offsets_across_words short_in_long.
Proof. apply (resolver_idempotent short_in_long). solve_wf. Defined.

(** X3. An index in which no span lies inside a span of another key, as
    an index with a single key or with spans that are apart, is returned
    as it is. *)
Theorem resolver_keeps_index_without_containment (data : results_index) :
  dict_wf data ->
  (forall K offsets sp,
      In (K, offsets) data -> In sp offsets ->
      ~ contained_elsewhere data K sp) ->
  filter_offsets_across_words data = data.
Proof.
  intros Hwf Hfree.
  rewrite filter_offsets_across_words_map by assumption.
  apply map_fixed. intros [K offsets] Hin. simpl. f_equal.
  unfold kept_offsets. apply filter_all_kept.
  intros sp Hsp. apply negb_true_iff.
  destruct (contained_elsewhereb data K sp) eqn:E; [|reflexivity].
  exfalso. apply contained_elsewhereb_spec in E.
  now apply (Hfree K offsets sp).
Qed.

Lemma resolver_keeps_index_without_containment_witness :
  filter_offsets_across_words two_terms = two_terms.
Proof.
  apply (resolver_keeps_index_without_containment two_terms).
  - solve_wf.
  - intros K offsets sp Hin Hsp
           (K2 & offsets2 & start2 & end2 & Hin2 & Hne & Hsp2 & Hs & He).
    destruct Hin as [E | [E | []]]; injection E as <- <-;
      destruct Hsp as [<- | []];
      destruct Hin2 as [E2 | [E2 | []]]; injection E2 as <- <-;
      try (now apply Hne);
      destruct Hsp2 as [E3 | []]; injection E3 as <- <-; simpl in *; lia.
Defined.

Lemma dict_get_None {V : Type} (k : str) (d : dict V) :
  dict_get k d = None <-> ~ In k (keys d).
Proof.
  rewrite <- dict_mem_keys. unfold dict_mem.
  destruct (dict_get k d); split; intros H; try discriminate; auto.
  exfalso. now apply H.
Qed.

Lemma existsb_Permutation {A : Type} (f : A -> bool) (l l' : list A) :
  Permutation l l' -> existsb f l = existsb f l'.
Proof.
  intros H. induction H; simpl.
  - reflexivity.
  - now rewrite IHPermutation.
  - destruct (f x), (f y); reflexivity.
  - congruence.
Qed.

(** X4. The order of the keys in the index does not change what is kept
    under each key. *)
Theorem resolver_independent_of_key_order (data data' : results_index)
    (K : str) :
  dict_wf data -> Permutation data data' ->
  dict_get K (filter_offsets_across_words data') =
  dict_get K (filter_offsets_across_words data).
Proof.
  intros Hwf Hperm.
  assert (Hwf' : dict_wf data').
  { unfold dict_wf, keys in *.
    apply (Permutation_NoDup (l := map fst data)); [|assumption].
    now apply Permutation_map. }
  destruct (dict_get K data) as [offsets|] eqn:Hget.
  - apply dict_get_In in Hget.
    rewrite (dict_get_filter_offsets_across_words data K offsets)
      by assumption.
    rewrite (dict_get_filter_offsets_across_words data' K offsets);
      [|assumption | now apply (Permutation_in _ Hperm)].
    f_equal. unfold kept_offsets. apply filter_ext. intros sp.
    unfold contained_elsewhereb. f_equal. symmetry.
    now apply existsb_Permutation.
  - apply dict_get_None in Hget.
    assert (Hget' : ~ In K (keys data')).
    { intros Hin. apply Hget. unfold keys in *.
      apply (Permutation_in _ (Permutation_sym (Permutation_map fst Hperm))).
      exact Hin. }
    transitivity (@None (list span)); [|symmetry]; apply dict_get_None;
      now rewrite keys_filter_offsets_across_words.
Qed.

Lemma resolver_independent_of_key_order_witness :
  dict_get (lit "A")
    (filter_offsets_across_words
       [(lit "B", [(0, 10)]); (lit "A", [(0, 5)])]) =
  dict_get (lit "A") (filter_offsets_across_words short_in_long).
Proof.
  apply (resolver_independent_of_key_order short_in_long
           [(lit "B", [(0, 10)]); (lit "A", [(0, 5)])] (lit "A")).
  - solve_wf.
  - apply perm_swap.
Defined.

(* ------------------------------------------------------------------ *)
(** *** DictionaryScanner: the index it returns *)

Lemma dict_wf_dict_set {V : Type} (k : str) (v : V) (d : dict V) :
  dict_wf d -> dict_wf (dict_set k v d).
Proof.
  unfold dict_wf. intros Hwf. rewrite keys_dict_set.
  destruct (existsb (str_eqb k) (keys d)) eqn:E; [assumption|].
  apply NoDup_app; [assumption | repeat constructor; intros [] |].
  intros x Hx [<- | []].
  apply existsb_str_eqb_In in Hx. congruence.
Qed.

Lemma dict_wf_record_results (results : results_index)
    (found_here : list found) :
  dict_wf results -> dict_wf (record_results results found_here).
Proof.
  unfold record_results. revert results.
  induction found_here as [|[positions form] rest IH]; intros results Hwf.
  - exact Hwf.
  - cbn [fold_left]. apply IH. unfold record_result.
    destruct (dict_get form results); now apply dict_wf_dict_set.
Qed.

Lemma new_keys_In (seen forms : list str) (k : str) :
  In k (new_keys seen forms) -> In k forms /\ ~ In k seen.
Proof.
  revert seen. induction forms as [|f rest IH]; intros seen; simpl.
  - intros [].
  - destruct (existsb (str_eqb f) seen) eqn:E.
    + intros H. apply IH in H as [H1 H2]. auto.
    + intros [<- | H].
      * split; [now left|]. intros Hin.
        apply existsb_str_eqb_In in Hin. congruence.
      * apply IH in H as [H1 H2]. split; [now right|].
        intros Hin. apply H2. apply in_or_app. now left.
Qed.

(** X5. For a lexicon given with the fields the code reads and an
    index whose keys hold lists of their own, the index returned has
    each key once: the keys of the index given, in their order, and
    after them texts that some scanned term matched, none of which was a
    key before. *)
Theorem scanner_index_keys (T : Re.tables) (dje_data : list concept_record)
    (text : str) (results : results_index) (termtype : str) :
  dict_wf results ->
  exists index new,
    search_in_dle T dje_data text results termtype = Some index /\
    dict_wf index /\
    keys index = keys results ++ new /\
    forall k,
      In k new ->
      ~ In k (keys results) /\
      exists term found_here positions,
        In term (scanned_terms termtype dje_data) /\
        find_offsets_and_forms T text term = Some found_here /\
        In (positions, k) found_here.
Proof.
  intros Hwf. rewrite search_in_dle_matches.
  set (found_all := flat_map (term_matches T text)
                      (scanned_terms termtype dje_data)).
  exists (filter_offsets_across_words (record_results results found_all)),
         (new_keys (keys results) (map snd found_all)).
  pose proof (dict_wf_record_results results found_all Hwf) as Hwf'.
  split; [reflexivity|]. split.
  { now apply dict_wf_filter_offsets_across_words. }
  split.
  { rewrite keys_filter_offsets_across_words by assumption.
    apply keys_record_results. }
  intros k Hk. apply new_keys_In in Hk as [Hk Hnew]. split; [assumption|].
  apply in_map_iff in Hk as [[positions form] [E Hin]]. simpl in E. subst form.
  apply in_flat_map in Hin as [term [Hterm Hin]].
  exists term, (term_matches T text term), positions.
  split; [assumption|]. split; [apply find_offsets_and_forms_scan | assumption].
Qed.

Lemma scanner_index_keys_witness :
  exists index new,
    search_in_dle Re.latin1 blank_subterm_lexicon (lit "a b") two_terms
      default_termtype = Some index /\
    dict_wf index /\
    keys index = keys two_terms ++ new /\
    forall k,
      In k new ->
      ~ In k (keys two_terms) /\
      exists term found_here positions,
        In term (scanned_terms default_termtype blank_subterm_lexicon) /\
        find_offsets_and_forms Re.latin1 (lit "a b") term = Some found_here /\
        In (positions, k) found_here.
Proof.
  apply (scanner_index_keys Re.latin1 blank_subterm_lexicon (lit "a b")
           two_terms default_termtype).
  solve_wf.
Defined.

Lemma scanned_terms_eligible (termtype : str)
    (dje_data : list concept_record) :
  scanned_terms termtype (filter (eligible termtype) dje_data) =
  scanned_terms termtype dje_data.
Proof.
  unfold scanned_terms.
  induction dje_data as [|record rest IH]; simpl; [reflexivity|].
  destruct (eligible termtype record) eqn:E; simpl.
  - now rewrite E, IH.
  - exact IH.
Qed.

(** X6. The entries whose [Body] does not hold the tag can be taken out
    of the lexicon without any change of the result, and the scan of two
    lexicons one after the other is the scan of the second from the
    index filled by the first. *)
Theorem scanner_ignores_other_domains (T : Re.tables)
    (dje_data more_data : list concept_record) (text : str)
    (results : results_index) (termtype : str) :
  search_in_dle T (filter (eligible termtype) dje_data) text results termtype
    = search_in_dle T dje_data text results termtype /\
  scan_records T text termtype (dje_data ++ more_data) results =
    bind (scan_records T text termtype dje_data results)
         (scan_records T text termtype more_data).
Proof.
  split.
  - rewrite !search_in_dle_matches. now rewrite scanned_terms_eligible.
  - rewrite !scan_records_matches. cbn [bind].
    rewrite scan_records_matches. unfold scanned_terms.
    now rewrite flat_map_app, flat_map_app, record_results_app.
Qed.

(* ------------------------------------------------------------------ *)
(** *** TermMatcher: texts and expressions without a word *)

Section BoundaryFacts.
Variable T : Re.tables.
Variable text : str.
Local Open Scope nat_scope.

Lemma at_boundary_without_word (pos : nat) :
  (forall c, In c text -> Re.is_word T c = false) ->
  Re.at_boundary T text pos = false.
Proof.
  intros Hno. unfold Re.at_boundary.
  assert (H : forall p, match nth_error text p with
                        | Some c => Re.is_word T c
                        | None => false
                        end = false).
  { intros p. destruct (nth_error text p) as [c|] eqn:E; [|reflexivity].
    apply Hno. now apply (nth_error_In text p). }
  rewrite H. destruct pos as [|p]; [reflexivity|]. now rewrite H.
Qed.

Lemma scan_without_boundary (alts : list str) (n pos resume : nat) :
  (forall p, Re.at_boundary T text p = false) ->
  scan T text alts n pos resume = [].
Proof.
  intros Hno. revert pos resume.
  induction n as [|n IH]; intros pos resume; cbn [scan];
    unfold first_alternative; rewrite Hno;
    destruct (pos <? resume); auto.
Qed.

Lemma first_alternative_empty (pos : nat) :
  first_alternative T text [[]] pos =
  if Re.at_boundary T text pos then Some pos else None.
Proof.
  unfold first_alternative.
  destruct (Re.at_boundary T text pos) eqn:E; [|reflexivity].
  unfold find, alternative_at, literal_at. simpl length.
  rewrite Nat.add_0_r, E. simpl. now rewrite Nat.add_0_r.
Qed.

(** The scan for the empty alternative: the empty span at each word
    boundary. *)
Lemma scan_empty_alternative (n pos resume : nat) :
  resume <= pos ->
  scan T text [[]] n pos resume =
  map (fun p => (p, p)) (filter (Re.at_boundary T text) (seq pos (S n))).
Proof.
  revert pos resume. induction n as [|n IH]; intros pos resume Hle;
    cbn [scan];
    replace (pos <? resume) with false by (symmetry; apply Nat.ltb_ge; lia);
    rewrite first_alternative_empty.
  - simpl. destruct (Re.at_boundary T text pos); reflexivity.
  - cbn [seq filter].
    destruct (Re.at_boundary T text pos) eqn:E; simpl.
    + now rewrite (IH (S pos) pos) by lia.
    + now rewrite (IH (S pos) resume) by lia.
Qed.

End BoundaryFacts.

Lemma term_matches_without_word (T : Re.tables) (text expression : str) :
  (forall c, In c text -> Re.is_word T c = false) ->
  term_matches T text expression = [].
Proof.
  intros Hno. unfold term_matches, scan_text.
  rewrite scan_without_boundary; [reflexivity|].
  intros p. now apply at_boundary_without_word.
Qed.

Lemma flat_map_nil {A B : Type} (f : A -> list B) (l : list A) :
  (forall x, f x = []) -> flat_map f l = [].
Proof.
  intros H. induction l as [|x l IH]; simpl; [reflexivity|].
  now rewrite H, IH.
Qed.

(** X7. In a text without a word character, as the empty text or a line
    of punctuation, nothing is found, whatever the expression; the index
    given comes back resolved and no line is written. *)
Theorem nothing_found_without_word_character (T : Re.tables) (text : str) :
  (forall c, In c text -> Re.is_word T c = false) ->
  (forall expression, find_offsets_and_forms T text expression = Some []) /\
  (forall dje_data results termtype,
      search_in_dle T dje_data text results termtype =
      Some (filter_offsets_across_words results)) /\
  (forall dje_data, annotate T dje_data text = Some []).
Proof.
  intros Hno.
  assert (H1 : forall dje_data results termtype,
             search_in_dle T dje_data text results termtype =
             Some (filter_offsets_across_words results)).
  { intros. rewrite search_in_dle_matches.
    rewrite flat_map_nil; [reflexivity|].
    intros e. now apply term_matches_without_word. }
  split; [|split; [exact H1|]].
  - intros e. rewrite find_offsets_and_forms_scan.
    now rewrite term_matches_without_word.
  - intros dje_data. unfold annotate. now rewrite H1.
Qed.

Lemma nothing_found_without_word_character_witness :
  (forall expression,
      find_offsets_and_forms Re.latin1 (lit "., ;") expression = Some []) /\
  (forall dje_data results termtype,
      search_in_dle Re.latin1 dje_data (lit "., ;") results termtype =
      Some (filter_offsets_across_words results)) /\
  (forall dje_data, annotate Re.latin1 dje_data (lit "., ;") = Some []).
Proof.
  apply (nothing_found_without_word_character Re.latin1 (lit "., ;")).
  intros c [<- | [<- | [<- | [<- | []]]]]; reflexivity.
Defined.

(** X8. An expression without a word, empty or of white space only,
    gives no pattern, and is found as the empty text at every word
    boundary of the text, from left to right. *)
Theorem wordless_expression_matches_boundaries (T : Re.tables)
    (text expression : str) :
  split expression = [] ->
  build_inflected_patterns expression = [] /\
  find_offsets_and_forms T text expression =
  Some (map (fun p => ((Z.of_nat p, Z.of_nat p), []))
          (filter (Re.at_boundary T text) (seq 0 (S (length text))))).
Proof.
  intros Hw. split.
  { destruct (build_inflected_patterns_cases expression)
      as [[_ E] | [[H _] | [H _]]];
      [exact E | rewrite Hw in H; discriminate H
       | rewrite Hw in H; simpl in H; lia]. }
  rewrite find_offsets_and_forms_scan.
  unfold term_matches, scan_text.
  destruct (literal_alternatives_patterns expression)
    as [[_ ->] | [[H _] | [H _]]];
    [| rewrite Hw in H; discriminate H | rewrite Hw in H; simpl in H; lia].
  rewrite scan_empty_alternative by lia. rewrite map_map.
  f_equal. apply map_ext. intros p. unfold found_at, slice. simpl.
  now rewrite Nat.sub_diag.
Qed.

Lemma wordless_expression_matches_boundaries_witness :
  build_inflected_patterns (lit "  ") = [] /\
  find_offsets_and_forms Re.latin1 (lit "a b") (lit "  ") =
  Some (map (fun p => ((Z.of_nat p, Z.of_nat p), []))
          (filter (Re.at_boundary Re.latin1 (lit "a b"))
             (seq 0 (S (length (lit "a b")))))).
Proof.
  apply (wordless_expression_matches_boundaries Re.latin1 (lit "a b")
           (lit "  ")).
  reflexivity.
Defined.

(* ------------------------------------------------------------------ *)
(** *** PatternBuilder: a single word with white space around it *)

Lemma isspace_not_suffix_letter (c : char) :
  isspace c = true ->
  unaccented_vowel c = false /\ accented_vowel c = false /\
  (c =? 122)%N = false.
Proof.
  intros Hsp.
  assert (H : forall x, isspace x = false -> (c =? x)%N = false).
  { intros x Hx. destruct (c =? x)%N eqn:E; [|reflexivity].
    apply N.eqb_eq in E. subst x. congruence. }
  unfold unaccented_vowel, accented_vowel. simpl.
  rewrite !H by reflexivity. auto.
Qed.

(** X9. For an expression of one word that ends in white space (the
    whole expression is inflected, not the word), the plural is made on
    the white space: "es" is put after it whatever letter ends the
    word. *)
Theorem single_word_inflects_trailing_space (expression : str) (c : char) :
  length (split expression) = 1%nat ->
  last_char expression = Some c -> isspace c = true ->
  build_inflected_patterns expression =
  [Re.escape expression; Re.escape (expression ++ lit "es")].
Proof.
  intros Hone Hlast Hsp.
  destruct (build_inflected_patterns_cases expression)
    as [[H _] | [[_ ->] | [H _]]];
    [rewrite H in Hone; discriminate Hone | | lia].
  unfold plural_form. rewrite Hlast.
  destruct (isspace_not_suffix_letter c Hsp) as (-> & -> & ->).
  reflexivity.
Qed.

Lemma single_word_inflects_trailing_space_witness :
  build_inflected_patterns (lit "mesa ") =
  [Re.escape (lit "mesa "); Re.escape (lit "mesa " ++ lit "es")].
Proof.
  apply (single_word_inflects_trailing_space (lit "mesa ") 32%N);
    reflexivity.
Defined.

(* ------------------------------------------------------------------ *)
(** *** TermMatcher: the case of the letters of the word *)

Section CaseFacts.
Variable T : Re.tables.
Variable text : str.
Local Open Scope nat_scope.

Lemma literal_at_same_letters (alt alt' : str) (pos : nat) :
  same_letters T alt alt' ->
  literal_at T text alt pos = literal_at T text alt' pos.
Proof.
  intros H. revert pos. induction H as [|c c' alt alt' Hc _ IH]; intros pos.
  - reflexivity.
  - simpl. destruct (nth_error text pos) as [t|]; [|reflexivity].
    now rewrite (Hc t), IH.
Qed.

Lemma first_alternative_same_letters (alts alts' : list str) (pos : nat) :
  Forall2 (same_letters T) alts alts' ->
  first_alternative T text alts pos = first_alternative T text alts' pos.
Proof.
  intros H. unfold first_alternative.
  destruct (Re.at_boundary T text pos); [|reflexivity].
  induction H as [|alt alt' alts alts' Ha _ IH]; [reflexivity|].
  cbn [find]. unfold alternative_at at 1 3.
  rewrite (literal_at_same_letters alt alt' pos Ha).
  rewrite (Forall2_length Ha).
  destruct (literal_at T text alt' pos && _); [|exact IH].
  now rewrite (Forall2_length Ha).
Qed.

Lemma scan_same_letters (alts alts' : list str) (n pos resume : nat) :
  Forall2 (same_letters T) alts alts' ->
  scan T text alts n pos resume = scan T text alts' n pos resume.
Proof.
  intros H. revert pos resume.
  induction n as [|n IH]; intros pos resume; cbn [scan];
    rewrite (first_alternative_same_letters alts alts' pos H);
    [reflexivity|].
  destruct (if pos <? resume then None else first_alternative T text alts' pos);
    now rewrite IH.
Qed.

End CaseFacts.

Lemma same_letters_refl (T : Re.tables) (e : str) : same_letters T e e.
Proof. induction e; constructor; [intros t; reflexivity | assumption]. Qed.

Lemma same_letters_removelast (T : Re.tables) (e e' : str) :
  same_letters T e e' -> same_letters T (removelast e) (removelast e').
Proof.
  intros H. induction H as [|c c' e e' Hc He IH]; [constructor|].
  destruct He as [|d d' e e' Hd He].
  - constructor.
  - change (removelast (c :: d :: e)) with (c :: removelast (d :: e)).
    change (removelast (c' :: d' :: e')) with (c' :: removelast (d' :: e')).
    constructor; assumption.
Qed.

Lemma plural_form_same_letters (T : Re.tables) (e e' : str) :
  same_letters T e e' -> last_char e = last_char e' ->
  same_letters T (plural_form e) (plural_form e').
Proof.
  intros H Hlast. unfold plural_form. rewrite <- Hlast.
  pose proof (same_letters_removelast T e e' H) as Hr.
  destruct (last_char e) as [c|];
    [destruct (unaccented_vowel c);
     [|destruct (accented_vowel c); [|destruct (c =? 122)%N]]|];
    apply Forall2_app;
    first [exact H | exact Hr | apply same_letters_refl].
Qed.

(** X10. For a word without white space around it, the case of its
    letters other than the last does not change what is found: two
    words whose letters match the same characters and whose last
    characters are equal give the same matches. *)
Theorem letter_case_before_the_ending_is_irrelevant (T : Re.tables)
    (text word word' : str) :
  length (split word) = 1%nat -> length (split word') = 1%nat ->
  same_letters T word word' -> last_char word = last_char word' ->
  find_offsets_and_forms T text word' = find_offsets_and_forms T text word.
Proof.
  intros H1 H1' Hsame Hlast.
  rewrite !find_offsets_and_forms_scan. f_equal.
  unfold term_matches, scan_text. f_equal.
  destruct (literal_alternatives_patterns word)
    as [[H _] | [[_ ->] | [H _]]];
    [rewrite H in H1; discriminate H1 | | lia].
  destruct (literal_alternatives_patterns word')
    as [[H _] | [[_ ->] | [H _]]];
    [rewrite H in H1'; discriminate H1' | | lia].
  symmetry. apply scan_same_letters.
  repeat constructor; [assumption | now apply plural_form_same_letters].
Qed.

Lemma letter_case_before_the_ending_is_irrelevant_witness :
  find_offsets_and_forms Re.latin1 (lit "La mesa y las Mesas") (lit "Mesa") =
  find_offsets_and_forms Re.latin1 (lit "La mesa y las Mesas") (lit "mesa").
Proof.
  apply (letter_case_before_the_ending_is_irrelevant Re.latin1
           (lit "La mesa y las Mesas") (lit "mesa") (lit "Mesa")).
  - reflexivity.
  - reflexivity.
  - repeat constructor; intros t; reflexivity.
  - reflexivity.
Defined.

(* ------------------------------------------------------------------ *)
(** *** One document, from the lexicon to the lines *)

Lemma annotate_lines (T : Re.tables) (dje_data : list concept_record)
    (data : str) :
  annotate T dje_data data = Some (annotation_lines T dje_data data).
Proof.
  unfold annotate, annotation_lines. now rewrite search_in_dle_matches.
Qed.

Lemma final_index_substrings (T : Re.tables) (text : str)
    (terms : list str) :
  index_all (substring_at text)
    (filter_offsets_across_words
       (record_results [] (flat_map (term_matches T text) terms))).
Proof.
  apply filter_offsets_across_words_all, record_results_all.
  - intros key offsets sp [].
  - intros positions form Hin.
    apply in_flat_map in Hin as [term [_ Hin]].
    now apply (term_matches_substring T text term).
Qed.

Lemma nth_error_numbered_lines_inv (ind : Z) (ps : list (str * span))
    (i : nat) (line : str) :
  nth_error (numbered_lines ind ps) i = Some line ->
  exists term start end_,
    nth_error ps i = Some (term, (start, end_)) /\
    line = formated_data (ind + Z.of_nat i) term start end_.
Proof.
  intros H. destruct (nth_error ps i) as [[term [start end_]]|] eqn:E.
  - exists term, start, end_. split; [reflexivity|].
    rewrite (nth_error_numbered_lines ind ps i term start end_ E) in H.
    now injection H.
  - apply nth_error_None in E.
    assert (Hlt : (i < length (numbered_lines ind ps))%nat)
      by (apply nth_error_Some; congruence).
    rewrite length_numbered_lines in Hlt. lia.
Qed.

(** X11. For a lexicon given with the fields the code reads and a
    document already read, every line handed to [f.write] refers to the
    text: the line of rank [i] is the line of a key and a span, numbered
    [i + 1], such that the span lies in the document and the key is the
    text of the document at the span. *)
Theorem annotation_lines_refer_to_text (T : Re.tables)
    (dje_data : list concept_record) (data : str) :
  exists lines,
    annotate T dje_data data = Some lines /\
    forall i line,
      nth_error lines i = Some line ->
      exists key start end_,
        line = formated_data (Z.of_nat i + 1) key start end_ /\
        0 <= start <= end_ /\ end_ <= Z.of_nat (length data) /\
        slice data (Z.to_nat start) (Z.to_nat end_) = key.
Proof.
  rewrite annotate_lines. eexists. split; [reflexivity|].
  intros i line Hline. unfold annotation_lines in Hline.
  set (index := filter_offsets_across_words
                  (record_results []
                     (flat_map (term_matches T data)
                        (scanned_terms default_termtype dje_data)))) in *.
  assert (Hwf : dict_wf index).
  { apply dict_wf_filter_offsets_across_words, dict_wf_record_results.
    constructor. }
  rewrite write_annotations_lines in Hline by assumption.
  apply nth_error_numbered_lines_inv in Hline
    as (key & start & end_ & Hnth & ->).
  exists key, start, end_.
  split; [f_equal; lia|].
  apply nth_error_In in Hnth. unfold key_span_pairs in Hnth.
  apply in_flat_map in Hnth as [[k offsets] [Hin Hsp]].
  simpl in Hsp. apply in_map_iff in Hsp as [sp [E Hsp]].
  injection E as -> ->.
  destruct (final_index_substrings T data _ key offsets (start, end_) Hin Hsp)
    as (H1 & H2 & H3).
  simpl in *. auto.
Qed.

(* ------------------------------------------------------------------ *)
(** *** The documents of a directory *)

Lemma rfind_from_app (c : char) (a b : str) (i : nat) (last : option nat) :
  rfind_from c (a ++ b) i last =
  rfind_from c b (i + length a)%nat (rfind_from c a i last).
Proof.
  revert i last. induction a as [|x a IH]; intros i last; simpl.
  - now rewrite Nat.add_0_r.
  - rewrite IH. now rewrite Nat.add_succ_r.
Qed.

Lemma suffix_stem (name : str) :
  suffix name <> [] ->
  name = stem name ++ suffix name /\ stem name <> [].
Proof.
  unfold suffix, stem. destruct (rfind dot name) as [i|]; [|congruence].
  destruct ((0 <? i) && (i <? length name - 1))%nat eqn:E; [|congruence].
  intros _. split; [now rewrite firstn_skipn|].
  apply andb_true_iff in E as [E1 E2].
  apply Nat.ltb_lt in E1, E2.
  intros H. apply (f_equal (@length char)) in H.
  rewrite length_firstn in H. simpl in H. lia.
Qed.

Lemma suffix_stem_txt (s : str) :
  s <> [] ->
  suffix (s ++ lit ".txt") = lit ".txt" /\ stem (s ++ lit ".txt") = s.
Proof.
  intros Hne. unfold suffix, stem, rfind.
  rewrite rfind_from_app. simpl rfind_from. cbv beta iota.
  assert (Hlen : (0 < length s)%nat) by (destruct s; [contradiction | simpl; lia]).
  replace ((0 <? length s) && (length s <? length (s ++ lit ".txt") - 1))%nat
    with true.
  - split.
    + now rewrite skipn_app, skipn_all, Nat.sub_diag.
    + rewrite firstn_app, firstn_all, Nat.sub_diag. simpl.
      now rewrite app_nil_r.
  - symmetry. apply andb_true_iff. split; apply Nat.ltb_lt; [assumption|].
    rewrite length_app. simpl. lia.
Qed.

Lemma is_document_name (entry : dir_entry) :
  is_document entry = true <->
  entry_is_file entry = true /\
  exists s, s <> [] /\ entry_name entry = s ++ lit ".txt".
Proof.
  unfold is_document. rewrite andb_true_iff, str_eqb_eq. split.
  - intros [Hf Hs]. split; [assumption|].
    destruct (suffix_stem (entry_name entry)) as [E Hne].
    { rewrite Hs. discriminate. }
    exists (stem (entry_name entry)). split; [assumption|].
    now rewrite <- Hs.
  - intros [Hf (s & Hne & ->)]. split; [assumption|].
    now apply suffix_stem_txt.
Qed.

Lemma execute_annotator_map (T : Re.tables) (dje_data : list concept_record)
    (entries : list dir_entry) :
  execute_annotator T dje_data entries =
  Some (map (fun entry =>
               (stem (entry_name entry) ++ lit ".ann",
                annotation_lines T dje_data (entry_data entry)))
          (filter is_document entries)).
Proof.
  induction entries as [|path rest IH]; [reflexivity|].
  cbn [execute_annotator filter].
  destruct (is_document path); [|exact IH].
  rewrite annotate_lines, IH. reflexivity.
Qed.

(** X12. For a lexicon given with the fields the code reads, and files
    that are read and written without error, the loop over a directory
    writes one file for each entry, in their order, that is a regular
    file named [s.txt] with [s] not empty (in these letters: not [.TXT],
    not [.txt] alone): the file [s.ann], with the lines of that document
    alone, numbered from 1 from an empty index. *)
Theorem documents_annotated (T : Re.tables) (dje_data : list concept_record)
    (entries : list dir_entry) :
  execute_annotator T dje_data entries =
    Some (map (fun entry =>
                 (stem (entry_name entry) ++ lit ".ann",
                  annotation_lines T dje_data (entry_data entry)))
            (filter is_document entries)) /\
  (forall entry,
      is_document entry = true <->
      entry_is_file entry = true /\
      exists s, s <> [] /\ entry_name entry = s ++ lit ".txt") /\
  (forall s, s <> [] -> stem (s ++ lit ".txt") = s) /\
  (forall data, annotate T dje_data data =
                Some (annotation_lines T dje_data data)) /\
  is_document {| entry_name := lit ".txt"; entry_is_file := true;
                 entry_data := [] |} = false /\
  is_document {| entry_name := lit "a.TXT"; entry_is_file := true;
                 entry_data := [] |} = false /\
  is_document {| entry_name := lit "a.b.txt"; entry_is_file := true;
                 entry_data := [] |} = true.
Proof.
  split; [apply execute_annotator_map|].
  split; [apply is_document_name|].
  split; [intros s Hs; now apply suffix_stem_txt|].
  split; [intros data; apply annotate_lines|].
  repeat split; reflexivity.
Qed.

(** X13. Documents with different names are written to files with
    different names: no annotation file is written twice. *)
Theorem annotation_files_are_distinct (T : Re.tables)
    (dje_data : list concept_record) (entries : list dir_entry) :
  NoDup (map entry_name entries) ->
  exists written,
    execute_annotator T dje_data entries = Some written /\
    NoDup (map fst written).
Proof.
  intros Hnd. rewrite execute_annotator_map. eexists. split; [reflexivity|].
  rewrite map_map. cbn [fst].
  induction entries as [|path rest IH]; [constructor|].
  inversion Hnd as [|? ? Hni Hnd']; subst. cbn [filter].
  destruct (is_document path) eqn:Hdoc; [|now apply IH].
  cbn [map]. constructor; [|now apply IH].
  intros Hin. apply Hni.
  apply in_map_iff in Hin as [other [E Hother]].
  apply filter_In in Hother as [Hother Hdoc'].
  apply app_inv_tail in E.
  apply is_document_name in Hdoc as [_ (s & Hs & En)].
  apply is_document_name in Hdoc' as [_ (s' & Hs' & En')].
  rewrite En, (proj2 (suffix_stem_txt s Hs)) in E.
  rewrite En', (proj2 (suffix_stem_txt s' Hs')) in E.
  apply in_map_iff. exists other. split; [congruence | assumption].
Qed.

Lemma annotation_files_are_distinct_witness :
  exists written,
    execute_annotator Re.latin1 nameless_lexicon
      [{| entry_name := lit "a.txt"; entry_is_file := true;
          entry_data := lit "uno" |};
       {| entry_name := lit "b.txt"; entry_is_file := true;
          entry_data := lit "dos" |};
       {| entry_name := lit "a.ann"; entry_is_file := true;
          entry_data := [] |}] = Some written /\
    NoDup (map fst written).
Proof.
  apply (annotation_files_are_distinct Re.latin1 nameless_lexicon).
  simpl. repeat (constructor; [simpl; intuition discriminate|]). constructor.
Defined.

(* ------------------------------------------------------------------ *)
(** *** TermMatcher: no occurrence is missed *)

Section Completeness.
Variable T : Re.tables.
Variable text : str.
Local Open Scope nat_scope.

Lemma scan_complete (alts : list str) (n pos resume p e : nat) :
  pos <= p <= pos + n ->
  first_alternative T text alts p = Some e ->
  In (p, e) (scan T text alts n pos resume) \/
  (exists s e', In (s, e') (scan T text alts n pos resume) /\ s < p < e') \/
  p < resume.
Proof.
  revert pos resume. induction n as [|n IH]; intros pos resume Hp HF.
  - assert (p = pos) by lia. subst p. cbn [scan].
    destruct (pos <? resume) eqn:Hlt.
    + apply Nat.ltb_lt in Hlt. auto.
    + rewrite HF. left. now left.
  - cbn [scan]. destruct (Nat.eq_dec p pos) as [-> | Hne].
    + destruct (pos <? resume) eqn:Hlt.
      * apply Nat.ltb_lt in Hlt. auto.
      * rewrite HF. left. now left.
    + assert (Hp' : S pos <= p <= S pos + n) by lia.
      destruct (if pos <? resume then None
                else first_alternative T text alts pos) as [e0|].
      * destruct (IH (S pos) e0 Hp' HF) as [H | [(s & e' & H & Hs) | H]].
        -- left. now right.
        -- right; left. exists s, e'. split; [now right | assumption].
        -- right; left. exists pos, e0. split; [now left | lia].
      * destruct (IH (S pos) resume Hp' HF) as [H | [(s & e' & H & Hs) | H]];
          [now left | right; left; now exists s, e' | now right; right].
Qed.

End Completeness.

(** X14. No occurrence is missed: where one of the texts of the patterns
    stands between two word boundaries, letter case apart, either the
    match that starts there is reported or the place lies inside a match
    that starts before it. *)
Theorem occurrences_are_reported (T : Re.tables) (text expression : str)
    (p e : nat) :
  first_alternative T text
    (literal_alternatives (build_inflected_patterns expression)) p = Some e ->
  exists found_here,
    find_offsets_and_forms T text expression = Some found_here /\
    (In ((Z.of_nat p, Z.of_nat e), slice text p e) found_here \/
     exists s e',
       In ((Z.of_nat s, Z.of_nat e'), slice text s e') found_here /\
       (s < p < e')%nat).
Proof.
  intros HF. rewrite find_offsets_and_forms_scan. eexists.
  split; [reflexivity|].
  unfold term_matches, scan_text.
  pose proof (first_alternative_bounds T text _ _ _ HF) as Hb.
  destruct (scan_complete T text _ (length text) 0 0 p e
              ltac:(lia) HF) as [H | [(s & e' & H & Hs) | H]]; [| |lia].
  - left. apply in_map_iff. now exists (p, e).
  - right. exists s, e'. split; [|assumption].
    apply in_map_iff. now exists (s, e').
Qed.

Lemma occurrences_are_reported_witness :
  exists found_here,
    find_offsets_and_forms Re.latin1 (lit "la ley, las leyes") (lit "ley")
      = Some found_here /\
    (In ((Z.of_nat 12, Z.of_nat 17), slice (lit "la ley, las leyes") 12 17)
        found_here \/
     exists s e',
       In ((Z.of_nat s, Z.of_nat e'), slice (lit "la ley, las leyes") s e')
          found_here /\
       (s < 12 < e')%nat).
Proof.
  apply (occurrences_are_reported Re.latin1 (lit "la ley, las leyes")
           (lit "ley") 12 17).
  reflexivity.
Defined.

(* ------------------------------------------------------------------ *)
(** *** A lexicon of one term *)

Lemma StronglySorted_pair {A : Type} (R : A -> A -> Prop) (l : list A)
    (x y : A) :
  StronglySorted R l -> In x l -> In y l -> x = y \/ R x y \/ R y x.
Proof.
  intros Hs. induction Hs as [|a l Hl IH Hall]; [intros []|].
  rewrite Forall_forall in Hall.
  intros [<- | Hx] [<- | Hy]; auto.
Qed.

(** The matches of a term that holds a word are apart from each other:
    none lies inside another. *)
Lemma term_matches_apart (T : Re.tables) (text term : str)
    (m1 m2 : found) :
  split term <> [] ->
  In m1 (term_matches T text term) -> In m2 (term_matches T text term) ->
  fst (fst m1) >= fst (fst m2) -> snd (fst m1) <= snd (fst m2) ->
  m1 = m2.
Proof.
  intros Hw H1 H2 Hs He.
  pose proof (term_matches_nonempty T text term (fst m1) (snd m1) Hw) as N1.
  pose proof (term_matches_nonempty T text term (fst m2) (snd m2) Hw) as N2.
  rewrite <- surjective_pairing in N1, N2.
  specialize (N1 H1). specialize (N2 H2).
  destruct (StronglySorted_pair _ _ m1 m2
              (scan_text_sorted T text _) H1 H2) as [E | [[Ha Hb] | [Ha Hb]]];
    [assumption | lia | lia].
Qed.

(** X15. A term never removes its own matches: for a lexicon of one
    entry without subterms whose name holds a word, the resolver drops
    nothing, and the index returned holds every match of the name. *)
Theorem single_term_keeps_all_matches (T : Re.tables)
    (record : concept_record) (text termtype : str) :
  SubLemas record = None -> eligible termtype record = true ->
  split (Name record) <> [] ->
  exists found_here,
    find_offsets_and_forms T text (Name record) = Some found_here /\
    search_in_dle T [record] text [] termtype =
    Some (record_results [] found_here).
Proof.
  intros Hsub Helig Hw.
  exists (term_matches T text (Name record)).
  split; [apply find_offsets_and_forms_scan|].
  rewrite search_in_dle_matches. unfold scanned_terms.
  cbn [flat_map]. rewrite Helig. unfold terms_of. rewrite Hsub.
  simpl. rewrite !app_nil_r. f_equal.
  set (ms := term_matches T text (Name record)).
  assert (Hall : index_all (fun key sp => In (sp, key) ms)
                   (record_results [] ms)).
  { apply record_results_all; [intros key offsets sp [] | auto]. }
  rewrite filter_offsets_across_words_map
    by (apply dict_wf_record_results; constructor).
  apply map_fixed. intros [K offsets] Hin. simpl. f_equal.
  unfold kept_offsets. apply filter_all_kept.
  intros sp Hsp. apply negb_true_iff.
  destruct (contained_elsewhereb (record_results [] ms) K sp) eqn:Hc;
    [|reflexivity].
  exfalso. apply contained_elsewhereb_spec in Hc.
  destruct Hc as (K2 & offsets2 & start2 & end2 & Hin2 & Hne & Hsp2 & Hs & He).
  pose proof (Hall K offsets sp Hin Hsp) as H1.
  pose proof (Hall K2 offsets2 (start2, end2) Hin2 Hsp2) as H2.
  assert (E : (sp, K) = ((start2, end2), K2)).
  { apply (term_matches_apart T text (Name record)); auto. }
  injection E as _ E. congruence.
Qed.

Lemma single_term_keeps_all_matches_witness :
  exists found_here,
    find_offsets_and_forms Re.latin1
      (lit "El arbitraje laboral. Hubo arbitrajes previos.")
      (lit "arbitraje") = Some found_here /\
    search_in_dle Re.latin1
      [{| Name := lit "arbitraje"; SubLemas := None;
          Body := [{| DomainType := lit "Lab." |}] |}]
      (lit "El arbitraje laboral. Hubo arbitrajes previos.") []
      default_termtype =
    Some (record_results [] found_here).
Proof.
  apply (single_term_keeps_all_matches Re.latin1
           {| Name := lit "arbitraje"; SubLemas := None;
              Body := [{| DomainType := lit "Lab." |}] |}
           (lit "El arbitraje laboral. Hubo arbitrajes previos.")
           default_termtype).
  - reflexivity.
  - reflexivity.
  - vm_compute. discriminate.
Defined.
